(** * Record3D visualizer: playback controller of [examples/07_record3d_visualizer.py]

    A shallow embedding of the example script: the playback GUI (timestep
    slider, step buttons, play checkbox, FPS slider), the per-frame scene
    nodes, the callbacks that toggle frame visibility and the playback loop.

    Python integers are [Z]; the FPS value (a Python float) is a rational [Q];
    exceptions are values of [PyError]; the script's mutable objects live in
    one [World] record threaded through a state-and-exception monad. *)

From Stdlib Require Import ZArith QArith Lqa Ascii.

From stdpp Require Import base gmap strings pretty list list_numbers.

Local Open Scope Z_scope.

(** ** Exceptions *)

Inductive PyError : Type :=
  | IndexError
  | ZeroDivisionError
  | NotFoundError
  | ValidationError
  | ReentrantTransactionError.

(** ** Scene graph *)

Inductive NodeType : Type :=
  | FrameNode
  | PointCloudNode
  | CameraFrustumNode
  | ImageNode.

Record SceneNode : Type := mkSceneNode {
  node_type : NodeType;
  node_visible : bool
}.

(** A field write on a node.  The payloads of [wxyz] and [position] are
    floating-point arrays; only the fact that they are written is kept. *)
Inductive FieldWrite : Type :=
  | Visible (b : bool)
  | Wxyz
  | Position.

Record Mutation : Type := mkMutation {
  mut_path : string;
  mut_write : FieldWrite
}.

Definition Transaction : Type := list Mutation.

Record ViserServer : Type := mkViserServer {
  registry : gmap string SceneNode;
  collector : option Transaction;
  published : list Transaction
}.

(** ** GUI elements *)

Record GuiSlider (T : Type) : Type := mkGuiSlider {
  sl_value : T;
  sl_min : T;
  sl_max : T;
  sl_step : T;
  sl_disabled : bool
}.

Arguments mkGuiSlider {T} _ _ _ _ _.

Arguments sl_value {T} _.

Arguments sl_min {T} _.

Arguments sl_max {T} _.

Arguments sl_step {T} _.

Arguments sl_disabled {T} _.

Record GuiButton : Type := mkGuiButton {
  btn_disabled : bool
}.

Record GuiCheckbox : Type := mkGuiCheckbox {
  cb_value : bool;
  cb_disabled : bool
}.

(** ** The objects of [main] *)

Record World : Type := mkWorld {
  server : ViserServer;
  num_frames : Z;
  gui_timestep : GuiSlider Z;
  gui_next_frame : GuiButton;
  gui_prev_frame : GuiButton;
  gui_playing : GuiCheckbox;
  gui_framerate : GuiSlider Q;
  prev_timestep : Z;
  frame_nodes : list string
}.

Definition with_server (f : ViserServer → ViserServer) (w : World) : World :=
  mkWorld (f (server w)) (num_frames w) (gui_timestep w) (gui_next_frame w)
    (gui_prev_frame w) (gui_playing w) (gui_framerate w) (prev_timestep w)
    (frame_nodes w).

Definition with_gui_timestep (f : GuiSlider Z → GuiSlider Z) (w : World) : World :=
  mkWorld (server w) (num_frames w) (f (gui_timestep w)) (gui_next_frame w)
    (gui_prev_frame w) (gui_playing w) (gui_framerate w) (prev_timestep w)
    (frame_nodes w).

Definition with_gui_next_frame (b : GuiButton) (w : World) : World :=
  mkWorld (server w) (num_frames w) (gui_timestep w) b
    (gui_prev_frame w) (gui_playing w) (gui_framerate w) (prev_timestep w)
    (frame_nodes w).

Definition with_gui_prev_frame (b : GuiButton) (w : World) : World :=
  mkWorld (server w) (num_frames w) (gui_timestep w) (gui_next_frame w)
    b (gui_playing w) (gui_framerate w) (prev_timestep w)
    (frame_nodes w).

Definition with_gui_playing (c : GuiCheckbox) (w : World) : World :=
  mkWorld (server w) (num_frames w) (gui_timestep w) (gui_next_frame w)
    (gui_prev_frame w) c (gui_framerate w) (prev_timestep w)
    (frame_nodes w).

Definition with_gui_framerate (f : GuiSlider Q → GuiSlider Q) (w : World) : World :=
  mkWorld (server w) (num_frames w) (gui_timestep w) (gui_next_frame w)
    (gui_prev_frame w) (gui_playing w) (f (gui_framerate w)) (prev_timestep w)
    (frame_nodes w).

Definition with_prev_timestep (t : Z) (w : World) : World :=
  mkWorld (server w) (num_frames w) (gui_timestep w) (gui_next_frame w)
    (gui_prev_frame w) (gui_playing w) (gui_framerate w) t
    (frame_nodes w).

Definition with_frame_nodes (l : list string) (w : World) : World :=
  mkWorld (server w) (num_frames w) (gui_timestep w) (gui_next_frame w)
    (gui_prev_frame w) (gui_playing w) (gui_framerate w) (prev_timestep w)
    l.

Definition slider_set_value {T} (v : T) (s : GuiSlider T) : GuiSlider T :=
  mkGuiSlider v (sl_min s) (sl_max s) (sl_step s) (sl_disabled s).

Definition slider_set_disabled {T} (d : bool) (s : GuiSlider T) : GuiSlider T :=
  mkGuiSlider (sl_value s) (sl_min s) (sl_max s) (sl_step s) d.

(** ** A monad for state and exceptions

    A raised exception keeps the world as it was when it was raised, as in
    Python. *)

Definition M (A : Type) : Type := World → (PyError + A) * World.

Definition ret {A} (a : A) : M A := λ w, (inr a, w).

Definition raise {A} (e : PyError) : M A := λ w, (inl e, w).

Definition bind {A B} (m : M A) (k : A → M B) : M B :=
  λ w, match m w with
       | (inl e, w') => (inl e, w')
       | (inr a, w') => k a w'
       end.

Definition gets {A} (f : World → A) : M A := λ w, (inr (f w), w).

Definition modify (f : World → World) : M unit := λ w, (inr tt, f w).

Declare Scope py_scope.

Delimit Scope py_scope with py.

Notation "x ← y ; z" := (bind y (λ x, z))
  (at level 20, y at level 100, z at level 200, only parsing) : py_scope.

Notation "x ;; z" := (bind x (λ _, z))
  (at level 100, z at level 200, only parsing, right associativity) : py_scope.

Local Open Scope py_scope.

(** [for x in l: body x] *)
Fixpoint for_each {A} (l : list A) (body : A → M unit) : M unit :=
  match l with
  | [] => ret tt
  | x :: l' => body x ;; for_each l' body
  end.

(** ** Python primitives *)

(** [a % b] on integers: the result has the sign of [b]; [b = 0] raises. *)
Definition py_mod (a b : Z) : M Z :=
  if b =? 0 then raise ZeroDivisionError else ret (a mod b).

(** [1.0 / x] on floats: [x = 0] raises. *)
Definition py_inv (x : Q) : M Q :=
  if Qeq_bool x 0 then raise ZeroDivisionError else ret (1 / x)%Q.

(** [l[i]]: a negative index counts from the end; out of range raises. *)
Definition py_getitem {A} (l : list A) (i : Z) : M A :=
  let len := Z.of_nat (length l) in
  let j := if i <? 0 then i + len else i in
  if (j <? 0) || (len <=? j) then raise IndexError
  else match l !! Z.to_nat j with
       | Some x => ret x
       | None => raise IndexError
       end.

(** [range(n)] *)
Definition py_range (n : Z) : list Z := seqZ 0 n.

(** [enumerate(l)] *)
Definition py_enumerate {A} (l : list A) : list (Z * A) :=
  zip (seqZ 0 (Z.of_nat (length l))) l.

(** ** The viser server

    The example calls into the [viser] package, whose sources are not part
    of the example; its Node Registry, Transaction Manager and Node Handles
    are modelled from the spec.  A node handle is the path of its node. *)

Definition set_registry (r : gmap string SceneNode) (s : ViserServer) : ViserServer :=
  mkViserServer r (collector s) (published s).

Definition set_collector (c : option Transaction) (s : ViserServer) : ViserServer :=
  mkViserServer (registry s) c (published s).

(** Modelled from the spec: [upsert] of the Node Registry, which is missing
    from the sources.  It creates or replaces the node at [path] and returns
    its handle; a new node is visible. *)
Definition upsert (path : string) (ty : NodeType) : M string :=
  modify (with_server (λ s,
    set_registry (<[path := mkSceneNode ty true]> (registry s)) s)) ;;
  ret path.

(** Modelled from the spec: the [add_*] methods of the server, one per node
    type, missing from the sources; payloads are not kept. *)
Definition add_frame (name : string) : M string := upsert name FrameNode.

Definition add_point_cloud (name : string) : M string := upsert name PointCloudNode.

Definition add_camera_frustum (name : string) : M string := upsert name CameraFrustumNode.

Definition add_image (name : string) : M string := upsert name ImageNode.

(** Modelled from the spec: [setField] of the Node Registry, missing from the
    sources, on a node that exists. *)
Definition write_field (fw : FieldWrite) (nd : SceneNode) : SceneNode :=
  match fw with
  | Visible b => mkSceneNode (node_type nd) b
  | Wxyz | Position => nd
  end.

(** Modelled from the spec: one mutation applied to the registry; an
    unregistered path fails. *)
Definition apply_mutation (reg : gmap string SceneNode) (m : Mutation)
    : option (gmap string SceneNode) :=
  match reg !! mut_path m with
  | Some nd => Some (<[mut_path m := write_field (mut_write m) nd]> reg)
  | None => None
  end.

(** Modelled from the spec: the mutations of a transaction applied in
    order. *)
Fixpoint apply_transaction (reg : gmap string SceneNode) (tx : Transaction)
    : option (gmap string SceneNode) :=
  match tx with
  | [] => Some reg
  | m :: tx' =>
      match apply_mutation reg m with
      | Some reg' => apply_transaction reg' tx'
      | None => None
      end
  end.

(** Modelled from the spec: the commit of the Transaction Manager, missing
    from the sources.  All of [tx] lands and is handed to the publish sink
    once, or nothing does. *)
Definition commit (tx : Transaction) : M unit :=
  λ w, match apply_transaction (registry (server w)) tx with
       | Some reg' =>
           (inr tt, with_server (λ s,
              mkViserServer reg' None (published s ++ [tx])) w)
       | None => (inl NotFoundError, with_server (set_collector None) w)
       end.

(** Modelled from the spec: a property write [handle.field = value] on a
    Node Handle, missing from the sources.  It queues a mutation in the open
    transaction, or commits a transaction of its own when none is open. *)
Definition set_field (handle : string) (fw : FieldWrite) : M unit :=
  λ w, match collector (server w) with
       | Some tx =>
           (inr tt, with_server (set_collector (Some (tx ++ [mkMutation handle fw]))) w)
       | None => commit [mkMutation handle fw] w
       end.

(** Modelled from the spec: [with server.atomic(): body], the scope of the
    Transaction Manager, missing from the sources.  Nesting is refused; a
    body that raises leaves nothing queued and publishes nothing. *)
Definition atomic (body : M unit) : M unit :=
  λ w, match collector (server w) with
       | Some _ => (inl ReentrantTransactionError, w)
       | None =>
           match body (with_server (set_collector (Some [])) w) with
           | (inr _, w') =>
               match collector (server w') with
               | Some tx => commit tx w'
               | None => (inr tt, w')
               end
           | (inl e, w') => (inl e, with_server (set_collector None) w')
           end
       end.

(** ** The callbacks of [main] *)

(** [f"/frames/t{i}"] *)
Definition frame_path (i : Z) : string := "/frames/t" +:+ pretty i.

(** Lines 60-67: toggle frame visibility when the timestep slider changes. *)
Definition timestep_on_update : M unit :=
  current_timestep ← gets (λ w, sl_value (gui_timestep w));
  atomic (
    nodes ← gets frame_nodes;
    shown ← py_getitem nodes current_timestep;
    set_field shown (Visible true) ;;
    nodes' ← gets frame_nodes;
    prev ← gets prev_timestep;
    hidden ← py_getitem nodes' prev;
    set_field hidden (Visible false)) ;;
  modify (with_prev_timestep current_timestep).

(** Modelled from the spec: the [value] setter of a GUI handle (Control
    Bindings, part of the [viser] package).  The store is updated first, then
    every registered change callback runs once; the script registers exactly
    one on the timestep slider. *)
Definition gui_timestep_set_value (v : Z) : M unit :=
  modify (with_gui_timestep (slider_set_value v)) ;;
  timestep_on_update.

(** Lines 42-44 *)
Definition next_frame_on_click : M unit :=
  v ← gets (λ w, sl_value (gui_timestep w));
  n ← gets num_frames;
  r ← py_mod (v + 1) n;
  gui_timestep_set_value r.

(** Lines 46-48 *)
Definition prev_frame_on_click : M unit :=
  v ← gets (λ w, sl_value (gui_timestep w));
  n ← gets num_frames;
  r ← py_mod (v - 1) n;
  gui_timestep_set_value r.

(** Lines 51-55: disable frame controls when we're playing. *)
Definition playing_on_update : M unit :=
  p ← gets (λ w, cb_value (gui_playing w));
  modify (with_gui_timestep (slider_set_disabled p)) ;;
  p' ← gets (λ w, cb_value (gui_playing w));
  modify (with_gui_next_frame (mkGuiButton p')) ;;
  p'' ← gets (λ w, cb_value (gui_playing w));
  modify (with_gui_prev_frame (mkGuiButton p'')).

(** Modelled from the spec: the [value] setter of the checkbox handle. *)
Definition gui_playing_set_value (b : bool) : M unit :=
  modify (λ w, with_gui_playing (mkGuiCheckbox b (cb_disabled (gui_playing w))) w) ;;
  playing_on_update.

(** Modelled from the spec: the [value] setter of the FPS slider handle; the
    script registers no callback on it. *)
Definition gui_framerate_set_value (v : Q) : M unit :=
  modify (with_gui_framerate (slider_set_value v)).

(** ** Setup: lines 23-128 of [main] *)

(** Lines 77-121, one iteration of the loading loop. *)
Definition load_frame (i : Z) : M unit :=
  frame ← add_frame (frame_path i);
  nodes ← gets frame_nodes;
  modify (with_frame_nodes (nodes ++ [frame])) ;;
  add_point_cloud (frame_path i +:+ "/point_cloud") ;;
  frustum ← add_camera_frustum (frame_path i +:+ "/frustum");
  set_field frustum Wxyz ;;
  set_field frustum Position ;;
  add_frame (frame_path i +:+ "/frustum/axes") ;;
  img ← add_image (frame_path i +:+ "/frustum/image");
  set_field img Wxyz ;;
  set_field img Position.

(** Modelled from the spec: creation of a numeric slider (Control Bindings,
    part of the [viser] package).  A numeric control holds a value within its
    declared bounds; an initial value outside them is rejected. *)
Definition add_gui_slider {T} (leb : T → T → bool) (min max step initial_value : T)
    : PyError + GuiSlider T :=
  if leb min initial_value && leb initial_value max
  then inr (mkGuiSlider initial_value min max step false)
  else inl ValidationError.

(** The world once the playback GUI of lines 30-39 exists; [prev_timestep]
    and [frame_nodes] are assigned by [setup]. *)
Definition initial_world (n : Z) (timestep : GuiSlider Z) (framerate : GuiSlider Q)
    : World :=
  mkWorld (mkViserServer ∅ None []) n
    timestep
    (mkGuiButton false) (mkGuiButton false)
    (mkGuiCheckbox false false)
    framerate
    0 [].

(** Lines 124-125, the body of the loop that hides all but the current
    frame; [p] is the pair [(i, frame_node)]. *)
Definition show_if_current (p : Z * string) : M unit :=
  v ← gets (λ w, sl_value (gui_timestep w));
  set_field p.2 (Visible (p.1 =? v)).

Definition setup : M unit :=
  v0 ← gets (λ w, sl_value (gui_timestep w));
  modify (with_prev_timestep v0) ;;
  add_frame "/frames" ;;
  n ← gets num_frames;
  for_each (py_range n) load_frame ;;
  nodes ← gets frame_nodes;
  for_each (py_enumerate nodes) show_if_current ;;
  v1 ← gets (λ w, sl_value (gui_timestep w));
  modify (with_prev_timestep v1).

(** [main] up to the playback loop.  [loader_num_frames] and [loader_fps]
    are what the Record3D loader reports. *)
Definition main_setup (max_frames loader_num_frames : Z) (loader_fps : Q)
    : PyError + World :=
  let n := Z.min max_frames loader_num_frames in
  match add_gui_slider Z.leb 0 (n - 1) 1 0 with
  | inl e => inl e
  | inr timestep =>
      match add_gui_slider Qle_bool 1%Q 60%Q (1 # 10)%Q loader_fps with
      | inl e => inl e
      | inr framerate =>
          match setup (initial_world n timestep framerate) with
          | (inl e, _) => inl e
          | (inr _, w) => inr w
          end
      end
  end.

(** ** The playback loop and the events of a run *)

(** Lines 130-133, one iteration of [while True]; the result is the argument
    of [time.sleep]. *)
Definition loop_iteration : M Q :=
  playing ← gets (λ w, cb_value (gui_playing w));
  (if playing : bool then
     v ← gets (λ w, sl_value (gui_timestep w));
     n ← gets num_frames;
     r ← py_mod (v + 1) n;
     gui_timestep_set_value r
   else ret tt) ;;
  fps ← gets (λ w, sl_value (gui_framerate w));
  py_inv fps.

(** What happens after setup: an interaction with the GUI, or one iteration
    of the playback loop. *)
Inductive Event : Type :=
  | ClickNextFrame
  | ClickPrevFrame
  | DragTimestep (v : Z)
  | TogglePlaying (b : bool)
  | DragFramerate (v : Q)
  | LoopIteration.

(** Modelled from the spec: the control surface.  A disabled element ignores
    interaction, a slider only produces values within its declared bounds,
    and an interactive change takes the same path as a programmatic one. *)
Definition dispatch (ev : Event) : M (option Q) :=
  match ev with
  | ClickNextFrame =>
      d ← gets (λ w, btn_disabled (gui_next_frame w));
      (if d : bool then ret tt else next_frame_on_click) ;; ret None
  | ClickPrevFrame =>
      d ← gets (λ w, btn_disabled (gui_prev_frame w));
      (if d : bool then ret tt else prev_frame_on_click) ;; ret None
  | DragTimestep v =>
      s ← gets gui_timestep;
      (if sl_disabled s || (v <? sl_min s) || (sl_max s <? v)
       then ret tt else gui_timestep_set_value v) ;; ret None
  | TogglePlaying b =>
      gui_playing_set_value b ;; ret None
  | DragFramerate v =>
      s ← gets gui_framerate;
      (if sl_disabled s || negb (Qle_bool (sl_min s) v) || negb (Qle_bool v (sl_max s))
       then ret tt else gui_framerate_set_value v) ;; ret None
  | LoopIteration =>
      d ← loop_iteration; ret (Some d)
  end.

(** A run handles the events in order and collects the sleep periods of the
    loop iterations; it stops at the first exception. *)
Fixpoint run (evs : list Event) : M (list Q) :=
  match evs with
  | [] => ret []
  | ev :: evs' =>
      d ← dispatch ev;
      ds ← run evs';
      ret (match d with Some x => x :: ds | None => ds end)
  end.

(** [frame_nodes[i].visible], read from the registry. *)
Definition frame_visible (w : World) (i : Z) : bool :=
  match registry (server w) !! frame_path i with
  | Some nd => node_visible nd
  | None => false
  end.

(** The indices of the per-frame subtrees whose root is visible. *)
Definition visible_frames (w : World) : list Z :=
  filter (λ i, frame_visible w i = true) (seqZ 0 (num_frames w)).

(** * Closed forms, invariants and reachable worlds

    The definitions the statements below are phrased with. *)

(** ** Well-formed worlds

    [Loaded n w]: the [n] frames are loaded, no transaction is open, and the
    timestep slider and [prev_timestep] agree on an index below [n]. *)

Record Loaded (n : Z) (w : World) : Prop := mkLoaded {
  loaded_num_frames : num_frames w = n;
  loaded_nodes : frame_nodes w = frame_path <$> seqZ 0 n;
  loaded_registered :
    ∀ i, 0 ≤ i < n → is_Some (registry (server w) !! frame_path i);
  loaded_closed : collector (server w) = None;
  loaded_bounds : sl_min (gui_timestep w) = 0 ∧ sl_max (gui_timestep w) = n - 1;
  loaded_range : 0 ≤ sl_value (gui_timestep w) < n;
  loaded_prev : prev_timestep w = sl_value (gui_timestep w)
}.

(** The closed form of a timestep change to [v]. *)

Definition switch_registry (reg : gmap string SceneNode) (new old : Z)
    : gmap string SceneNode :=
  alter (write_field (Visible false)) (frame_path old)
    (alter (write_field (Visible true)) (frame_path new) reg).

Definition switch_transaction (new old : Z) : Transaction :=
  [mkMutation (frame_path new) (Visible true);
   mkMutation (frame_path old) (Visible false)].

Definition switched (v : Z) (w : World) : World :=
  mkWorld
    (mkViserServer
       (switch_registry (registry (server w)) v (prev_timestep w))
       None
       (published (server w) ++ [switch_transaction v (prev_timestep w)]))
    (num_frames w) (slider_set_value v (gui_timestep w))
    (gui_next_frame w) (gui_prev_frame w) (gui_playing w) (gui_framerate w)
    v (frame_nodes w).

(** One loop iteration on a well-formed world. *)
Definition ticked (w : World) : World :=
  if cb_value (gui_playing w)
  then switched ((sl_value (gui_timestep w) + 1) mod num_frames w) w
  else w.

(** The closed form of an event on a well-formed world. *)

Definition toggled (b : bool) (w : World) : World :=
  with_gui_prev_frame (mkGuiButton b)
    (with_gui_next_frame (mkGuiButton b)
       (with_gui_timestep (slider_set_disabled b)
          (with_gui_playing (mkGuiCheckbox b (cb_disabled (gui_playing w))) w))).

Definition after (ev : Event) (w : World) : World :=
  match ev with
  | ClickNextFrame =>
      if btn_disabled (gui_next_frame w) then w
      else switched ((sl_value (gui_timestep w) + 1) mod num_frames w) w
  | ClickPrevFrame =>
      if btn_disabled (gui_prev_frame w) then w
      else switched ((sl_value (gui_timestep w) - 1) mod num_frames w) w
  | DragTimestep v =>
      if sl_disabled (gui_timestep w)
         || (v <? sl_min (gui_timestep w)) || (sl_max (gui_timestep w) <? v)
      then w else switched v w
  | TogglePlaying b => toggled b w
  | DragFramerate v =>
      if sl_disabled (gui_framerate w)
         || negb (Qle_bool (sl_min (gui_framerate w)) v)
         || negb (Qle_bool v (sl_max (gui_framerate w)))
      then w else with_gui_framerate (slider_set_value v) w
  | LoopIteration => ticked w
  end.

Definition outcome (ev : Event) (w : World) : PyError + option Q :=
  match ev with
  | LoopIteration =>
      match (py_inv (sl_value (gui_framerate w)) w).1 with
      | inl e => inl e
      | inr d => inr (Some d)
      end
  | _ => inr None
  end.

(** The frame controls are disabled exactly while playing. *)
Definition controls_follow_playing (w : World) : Prop :=
  sl_disabled (gui_timestep w) = cb_value (gui_playing w) ∧
  btn_disabled (gui_next_frame w) = cb_value (gui_playing w) ∧
  btn_disabled (gui_prev_frame w) = cb_value (gui_playing w).

(** The FPS slider keeps its value within its declared bounds. *)
Definition framerate_in_bounds (w : World) : Prop :=
  sl_disabled (gui_framerate w) = false ∧
  sl_min (gui_framerate w) = 1%Q ∧ sl_max (gui_framerate w) = 60%Q ∧
  (1 <= sl_value (gui_framerate w))%Q ∧ (sl_value (gui_framerate w) <= 60)%Q.

(** What the loading and visibility loops leave untouched. *)
Definition same_controls (w w' : World) : Prop :=
  num_frames w' = num_frames w ∧
  gui_timestep w' = gui_timestep w ∧
  gui_next_frame w' = gui_next_frame w ∧
  gui_prev_frame w' = gui_prev_frame w ∧
  gui_playing w' = gui_playing w ∧
  gui_framerate w' = gui_framerate w ∧
  prev_timestep w' = prev_timestep w.

Definition keeps_nodes (w w' : World) : Prop :=
  ∀ k, is_Some (registry (server w) !! k) → is_Some (registry (server w') !! k).

(** Exactly the frame at the slider's index is shown. *)
Definition shows_current (w : World) : Prop :=
  ∀ i, 0 ≤ i < num_frames w →
    frame_visible w i = (i =? sl_value (gui_timestep w)).

(** What a successful setup establishes. *)
Record Started (n : Z) (fps : Q) (w : World) : Prop := mkStarted {
  started_loaded : Loaded n w;
  started_controls : controls_follow_playing w;
  started_framerate : framerate_in_bounds w;
  started_shows : shows_current w;
  started_index : sl_value (gui_timestep w) = 0;
  started_paused : cb_value (gui_playing w) = false;
  started_fps : sl_value (gui_framerate w) = fps
}.

(** ** Reachable worlds: setup, then any sequence of events *)

Definition reachable (max_frames loader_num_frames : Z) (loader_fps : Q)
    (w : World) : Prop :=
  ∃ w0 evs ds,
    main_setup max_frames loader_num_frames loader_fps = inr w0 ∧
    run evs w0 = (inr ds, w).

(** The events other than a drag of the timestep slider. *)
Definition keeps_index (ev : Event) : bool :=
  match ev with
  | DragTimestep _ => false
  | _ => true
  end.

(** Worlds used as concrete instances: a three-frame capture at 30 FPS after
    setup, and after one click on "Prev Frame". *)
Definition three_frames : World :=
  match main_setup 50 3 30%Q with
  | inr w => w
  | inl _ => initial_world 3 (mkGuiSlider 0 0 2 1 false)
               (mkGuiSlider 30%Q 1%Q 60%Q (1 # 10)%Q false)
  end.

Definition three_frames_stepped : World := (run [ClickPrevFrame] three_frames).2.

(** A ten-frame capture with the slider dragged to 7. *)
Definition ten_frames : World :=
  match main_setup 50 10 30%Q with
  | inr w => w
  | inl _ => initial_world 10 (mkGuiSlider 0 0 9 1 false)
               (mkGuiSlider 30%Q 1%Q 60%Q (1 # 10)%Q false)
  end.

Definition ten_frames_at_seven : World := (run [DragTimestep 7] ten_frames).2.

(** Five frames with the slider dragged to 2. *)
Definition five_frames : World :=
  match main_setup 5 10 30%Q with
  | inr w => w
  | inl _ => initial_world 5 (mkGuiSlider 0 0 4 1 false)
               (mkGuiSlider 30%Q 1%Q 60%Q (1 # 10)%Q false)
  end.

Definition five_frames_at_two : World := (run [DragTimestep 2] five_frames).2.

(** A capture cut down to a single frame: [main(max_frames=1)]. *)
Definition one_frame : World :=
  match main_setup 1 10 30%Q with
  | inr w => w
  | inl _ => initial_world 1 (mkGuiSlider 0 0 0 1 false)
               (mkGuiSlider 30%Q 1%Q 60%Q (1 # 10)%Q false)
  end.

(** ** Paths, the scene, and runs without drags *)

(** No ['/'] occurs in [s]. *)
Fixpoint no_slash (s : string) : bool :=
  match s with
  | EmptyString => true
  | String c s' => negb (Ascii.eqb c "/"%char) && no_slash s'
  end.

(** [r] is empty or starts a new path component. *)
Definition rooted (r : string) : Prop :=
  r = "" ∨ ∃ r', r = String "/" r'.

(** The nodes one iteration of the loading loop registers, lines 82-121. *)
Definition add_subtree (i : Z) (reg : gmap string SceneNode)
    : gmap string SceneNode :=
  <[frame_path i +:+ "/frustum/image" := mkSceneNode ImageNode true]>
    (<[frame_path i +:+ "/frustum/axes" := mkSceneNode FrameNode true]>
       (<[frame_path i +:+ "/frustum" := mkSceneNode CameraFrustumNode true]>
          (<[frame_path i +:+ "/point_cloud" := mkSceneNode PointCloudNode true]>
             (<[frame_path i := mkSceneNode FrameNode true]> reg)))).

(** The paths below a per-frame root, with the type of their node. *)
Definition child_suffixes : list (string * NodeType) :=
  [("/point_cloud", PointCloudNode); ("/frustum", CameraFrustumNode);
   ("/frustum/axes", FrameNode); ("/frustum/image", ImageNode)].

Definition subtree_paths (i : Z) : list string :=
  frame_path i :: ((λ c, frame_path i +:+ c.1) <$> child_suffixes).

(** Every path of the scene of [n] frames. *)
Definition scene_paths (n : Z) : list string :=
  "/frames" :: (seqZ 0 n ≫= subtree_paths).

(** The scene that setup builds and playback keeps: the root, and per frame
    a root of some visibility with four visible children; nothing else. *)
Record Scene (n : Z) (reg : gmap string SceneNode) : Prop := mkScene {
  scene_root : reg !! "/frames" = Some (mkSceneNode FrameNode true);
  scene_frame : ∀ i, 0 ≤ i < n →
    node_type <$> reg !! frame_path i = Some FrameNode;
  scene_child : ∀ i c, 0 ≤ i < n → c ∈ child_suffixes →
    reg !! (frame_path i +:+ c.1) = Some (mkSceneNode c.2 true);
  scene_dom : dom reg = list_to_set (scene_paths n)
}.

(** A path of another frame, or outside all frames, is not touched by
    [add_subtree i]. *)
Definition outside (i : Z) (p : string) : Prop :=
  p ≠ frame_path i ∧ ∀ c, c ∈ child_suffixes → p ≠ frame_path i +:+ c.1.

(** Worlds reached from setup by step-button clicks, playback ticks, play
    toggles and FPS changes only. *)
Definition stepped (max_frames loader_num_frames : Z) (loader_fps : Q)
    (w : World) : Prop :=
  ∃ w0 evs ds,
    main_setup max_frames loader_num_frames loader_fps = inr w0 ∧
    forallb keeps_index evs = true ∧
    run evs w0 = (inr ds, w).

(** Three frames, playing, after one iteration of the loop. *)
Definition three_frames_playing : World :=
  (run [TogglePlaying true; LoopIteration] three_frames).2.

(** * Properties *)

(** ** Python primitives *)

Lemma py_mod_pos a b w : 0 < b → py_mod a b w = (inr (a mod b), w).
Proof.
  intros Hb. unfold py_mod.
  destruct (Z.eqb_spec b 0) as [->|_]; [lia | reflexivity].
Qed.

Lemma py_getitem_lookup {A} (l : list A) (i : Z) (x : A) w :
  0 ≤ i → l !! Z.to_nat i = Some x → py_getitem l i w = (inr x, w).
Proof.
  intros Hi Hx. unfold py_getitem.
  pose proof (lookup_lt_Some _ _ _ Hx) as Hlen.
  destruct (Z.ltb_spec i 0) as [|_]; [lia|].
  destruct (Z.ltb_spec i 0) as [|_]; [lia|].
  destruct (Z.leb_spec (Z.of_nat (length l)) i) as [|_]; [lia|].
  simpl. rewrite Hx. reflexivity.
Qed.

Lemma frame_path_inj i j : frame_path i = frame_path j → i = j.
Proof.
  unfold frame_path. intros H.
  apply (inj (String.app "/frames/t")) in H.
  by apply (inj pretty) in H.
Qed.

Lemma lookup_frame_paths n i :
  0 ≤ i < n → (frame_path <$> seqZ 0 n) !! Z.to_nat i = Some (frame_path i).
Proof.
  intros Hi. rewrite list_lookup_fmap, lookup_seqZ_lt by lia.
  simpl. f_equal. f_equal. lia.
Qed.

Lemma py_getitem_frame n i w :
  0 ≤ i < n → py_getitem (frame_path <$> seqZ 0 n) i w = (inr (frame_path i), w).
Proof.
  intros Hi. apply py_getitem_lookup; [lia|]. by apply lookup_frame_paths.
Qed.

(** ** Registry *)

Lemma apply_mutation_alter (reg : gmap string SceneNode) p fw :
  is_Some (reg !! p) →
  apply_mutation reg (mkMutation p fw) = Some (alter (write_field fw) p reg).
Proof.
  intros [nd Hnd]. unfold apply_mutation. simpl. rewrite Hnd. f_equal.
  apply map_eq. intros k. rewrite lookup_insert, lookup_alter.
  destruct (decide (p = k)) as [->|]; [by rewrite Hnd | done].
Qed.

Lemma alter_is_Some (reg : gmap string SceneNode) f p k :
  is_Some (alter f p reg !! k) ↔ is_Some (reg !! k).
Proof.
  rewrite lookup_alter. destruct (decide (p = k)) as [->|]; [|done].
  by rewrite fmap_is_Some.
Qed.

(** ** A timestep change on a well-formed world *)

Lemma gui_timestep_set_value_switched n w v :
  Loaded n w → 0 ≤ v < n →
  gui_timestep_set_value v w = (inr tt, switched v w).
Proof.
  intros [Hn Hnodes Hreg Hcl Hb Hr Hp] Hv.
  destruct w as [[reg col pub] nf ts nx pv pl fr prev nodes]; simpl in *.
  subst nf nodes col.
  unfold gui_timestep_set_value, timestep_on_update, bind, modify, gets, atomic.
  simpl.
  rewrite py_getitem_frame by done.
  unfold set_field at 1. simpl.
  rewrite py_getitem_frame by lia.
  unfold set_field. simpl. unfold commit. simpl.
  rewrite apply_mutation_alter by auto.
  rewrite apply_mutation_alter by (apply alter_is_Some, Hreg; lia).
  reflexivity.
Qed.

Lemma Loaded_switched n w v :
  Loaded n w → 0 ≤ v < n → Loaded n (switched v w).
Proof.
  intros [Hn Hnodes Hreg Hcl Hb Hr Hp] Hv.
  split; simpl; try done.
  intros i Hi. unfold switch_registry. rewrite !alter_is_Some. auto.
Qed.

Lemma frame_visible_switched n w v i :
  Loaded n w → 0 ≤ v < n → 0 ≤ i < n →
  frame_visible (switched v w) i =
    if decide (i = prev_timestep w) then false
    else if decide (i = v) then true
    else frame_visible w i.
Proof.
  intros HL Hv Hi. unfold frame_visible, switched, switch_registry. simpl.
  destruct (loaded_registered _ _ HL v Hv) as [ndv Hndv].
  destruct (loaded_registered _ _ HL i Hi) as [ndi Hndi].
  rewrite !lookup_alter.
  destruct (decide (i = prev_timestep w)) as [->|Hne].
  - rewrite (decide_True (P := frame_path _ = frame_path (prev_timestep w))) by done.
    destruct (decide (frame_path v = frame_path (prev_timestep w))) as [He|_].
    + rewrite Hndv. reflexivity.
    + rewrite Hndi. reflexivity.
  - rewrite (decide_False (P := frame_path (prev_timestep w) = frame_path i))
      by (intros He; apply frame_path_inj in He; congruence).
    destruct (decide (i = v)) as [->|Hne'].
    + rewrite decide_True by done. rewrite Hndv. reflexivity.
    + rewrite decide_False
        by (intros He; apply frame_path_inj in He; congruence).
      reflexivity.
Qed.

(** The step buttons and the tick on a well-formed world. *)

Lemma next_frame_on_click_switched n w :
  Loaded n w →
  next_frame_on_click w =
    (inr tt, switched ((sl_value (gui_timestep w) + 1) mod n) w).
Proof.
  intros HL. pose proof (loaded_range _ _ HL) as Hr.
  unfold next_frame_on_click, bind, gets.
  rewrite (loaded_num_frames _ _ HL), py_mod_pos by lia.
  apply (gui_timestep_set_value_switched n); [done|].
  apply Z.mod_pos_bound. lia.
Qed.

Lemma prev_frame_on_click_switched n w :
  Loaded n w →
  prev_frame_on_click w =
    (inr tt, switched ((sl_value (gui_timestep w) - 1) mod n) w).
Proof.
  intros HL. pose proof (loaded_range _ _ HL) as Hr.
  unfold prev_frame_on_click, bind, gets.
  rewrite (loaded_num_frames _ _ HL), py_mod_pos by lia.
  apply (gui_timestep_set_value_switched n); [done|].
  apply Z.mod_pos_bound. lia.
Qed.

Lemma playing_on_update_flags w :
  playing_on_update w =
    (inr tt,
     with_gui_prev_frame (mkGuiButton (cb_value (gui_playing w)))
       (with_gui_next_frame (mkGuiButton (cb_value (gui_playing w)))
          (with_gui_timestep (slider_set_disabled (cb_value (gui_playing w))) w))).
Proof. reflexivity. Qed.

Lemma py_inv_nonzero x w : ¬ (x == 0)%Q → py_inv x w = (inr (1 / x)%Q, w).
Proof.
  intros Hx. unfold py_inv.
  destruct (Qeq_bool x 0) eqn:E; [|reflexivity].
  apply Qeq_bool_iff in E. contradiction.
Qed.


Lemma loop_iteration_py_inv n w :
  Loaded n w →
  loop_iteration w = py_inv (sl_value (gui_framerate w)) (ticked w).
Proof.
  intros HL. pose proof (loaded_range _ _ HL) as Hr.
  unfold loop_iteration, ticked, bind, gets.
  destruct (cb_value (gui_playing w)) eqn:Hplay; [|reflexivity].
  rewrite (loaded_num_frames _ _ HL), py_mod_pos by lia.
  rewrite (gui_timestep_set_value_switched n)
    by (done || apply Z.mod_pos_bound; lia).
  reflexivity.
Qed.

Lemma py_inv_world x w : (py_inv x w).2 = w.
Proof. unfold py_inv. by destruct (Qeq_bool x 0). Qed.

Lemma loop_iteration_ticked n w :
  Loaded n w → ¬ (sl_value (gui_framerate w) == 0)%Q →
  loop_iteration w = (inr (1 / sl_value (gui_framerate w))%Q, ticked w).
Proof.
  intros HL Hfps. rewrite (loop_iteration_py_inv n) by done.
  by apply py_inv_nonzero.
Qed.

Lemma Loaded_ticked n w : Loaded n w → Loaded n (ticked w).
Proof.
  intros HL. unfold ticked. destruct (cb_value (gui_playing w)); [|done].
  apply Loaded_switched; [done|].
  rewrite (loaded_num_frames _ _ HL). apply Z.mod_pos_bound.
  pose proof (loaded_range _ _ HL). lia.
Qed.

(** ** Every event keeps the world well formed *)

Lemma dispatch_Loaded n ev w : Loaded n w → Loaded n (dispatch ev w).2.
Proof.
  intros HL. pose proof (loaded_range _ _ HL) as Hr.
  destruct ev as [| |v|b|v|]; unfold dispatch, bind, gets, ret.
  - destruct (btn_disabled (gui_next_frame w)); [done|].
    rewrite (next_frame_on_click_switched n) by done. simpl.
    apply Loaded_switched; [done|]. apply Z.mod_pos_bound. lia.
  - destruct (btn_disabled (gui_prev_frame w)); [done|].
    rewrite (prev_frame_on_click_switched n) by done. simpl.
    apply Loaded_switched; [done|]. apply Z.mod_pos_bound. lia.
  - destruct (loaded_bounds _ _ HL) as [Hmin Hmax].
    destruct (sl_disabled (gui_timestep w)); [done|]. simpl.
    rewrite Hmin, Hmax.
    destruct (Z.ltb_spec v 0); [done|].
    destruct (Z.ltb_spec (n - 1) v); [done|]. simpl.
    rewrite (gui_timestep_set_value_switched n) by (done || lia). simpl.
    apply Loaded_switched; [done|lia].
  - simpl. by destruct HL.
  - destruct (_ || _); simpl; by destruct HL.
  - rewrite (loop_iteration_py_inv n) by done.
    pose proof (py_inv_world (sl_value (gui_framerate w)) (ticked w)) as Hw.
    destruct (py_inv _ _) as [[e|d] w2]; simpl in *; subst w2;
      by apply Loaded_ticked.
Qed.

Lemma gui_playing_set_value_toggled b w :
  gui_playing_set_value b w = (inr tt, toggled b w).
Proof. reflexivity. Qed.

Lemma dispatch_after n ev w :
  Loaded n w → dispatch ev w = (outcome ev w, after ev w).
Proof.
  intros HL. pose proof (loaded_range _ _ HL) as Hr.
  pose proof (loaded_num_frames _ _ HL) as Hn.
  destruct ev as [| |v|b|v|]; unfold dispatch, after, outcome, bind, gets, ret.
  - destruct (btn_disabled (gui_next_frame w)); [done|].
    rewrite (next_frame_on_click_switched n), Hn by done. reflexivity.
  - destruct (btn_disabled (gui_prev_frame w)); [done|].
    rewrite (prev_frame_on_click_switched n), Hn by done. reflexivity.
  - destruct (loaded_bounds _ _ HL) as [Hmin Hmax].
    destruct (sl_disabled (gui_timestep w)); [done|]. simpl.
    rewrite Hmin, Hmax.
    destruct (Z.ltb_spec v 0); [done|].
    destruct (Z.ltb_spec (n - 1) v); [done|]. simpl.
    rewrite (gui_timestep_set_value_switched n) by (done || lia). reflexivity.
  - reflexivity.
  - destruct (_ || _); reflexivity.
  - rewrite (loop_iteration_py_inv n) by done.
    unfold py_inv.
    destruct (Qeq_bool _ _); reflexivity.
Qed.

Lemma Loaded_after n ev w : Loaded n w → Loaded n (after ev w).
Proof.
  intros HL. pose proof (dispatch_Loaded n ev w HL) as H.
  by rewrite (dispatch_after n) in H.
Qed.

Lemma controls_after ev w :
  controls_follow_playing w → controls_follow_playing (after ev w).
Proof.
  intros HC. destruct ev; unfold after, ticked;
    repeat match goal with |- context [if ?c then _ else _] => destruct c end;
    done.
Qed.

Lemma framerate_after ev w :
  framerate_in_bounds w → framerate_in_bounds (after ev w).
Proof.
  intros (Hen & Hmin & Hmax & Hlo & Hhi). destruct ev as [| |v|b|v|];
    unfold after, ticked;
    try (repeat match goal with
                | |- context [if ?c then _ else _] => destruct c
                end; done).
  rewrite Hen, Hmin, Hmax. simpl.
  destruct (Qle_bool 1 v) eqn:E1; [|done].
  destruct (Qle_bool v 60) eqn:E2; [|done]. simpl.
  apply Qle_bool_iff in E1, E2. done.
Qed.

Lemma outcome_in_bounds ev w :
  framerate_in_bounds w → ∃ d, outcome ev w = inr d.
Proof.
  intros (_ & _ & _ & Hlo & _). destruct ev; simpl; eauto.
  rewrite py_inv_nonzero; [simpl; eauto|].
  intros H0. rewrite H0 in Hlo. by apply Hlo.
Qed.

(** ** Runs *)

Lemma run_cons_ok n ev evs w ds w' :
  Loaded n w → run (ev :: evs) w = (inr ds, w') →
  ∃ ds', run evs (after ev w) = (inr ds', w').
Proof.
  intros HL. simpl. unfold bind. rewrite (dispatch_after n) by done.
  destruct (outcome ev w) as [e|d]; [done|].
  destruct (run evs (after ev w)) as [[e|ds'] w''] eqn:E; [done|].
  unfold ret. intros [= _ <-]. eauto.
Qed.

Lemma run_cons_after n ev evs w d :
  Loaded n w → outcome ev w = inr d →
  run (ev :: evs) w =
    match run evs (after ev w) with
    | (inl e, w') => (inl e, w')
    | (inr ds, w') =>
        (inr (match d with Some x => x :: ds | None => ds end), w')
    end.
Proof.
  intros HL Hd. simpl. unfold bind.
  rewrite (dispatch_after n), Hd by done. reflexivity.
Qed.

Lemma outcome_loop_iteration w :
  ¬ (sl_value (gui_framerate w) == 0)%Q →
  outcome LoopIteration w = inr (Some (1 / sl_value (gui_framerate w))%Q).
Proof. intros Hnz. simpl. by rewrite py_inv_nonzero. Qed.

Lemma run_invariant (P : World → Prop) n evs :
  (∀ ev w, Loaded n w → P w → P (after ev w)) →
  ∀ w ds w', Loaded n w → P w → run evs w = (inr ds, w') →
  Loaded n w' ∧ P w'.
Proof.
  intros Hstep. induction evs as [|ev evs IH]; intros w ds w' HL HP Hrun.
  - injection Hrun as _ <-. done.
  - destruct (run_cons_ok n ev evs w ds w' HL Hrun) as [ds' Hrun'].
    eapply IH; [| |exact Hrun'].
    + by apply Loaded_after.
    + by apply Hstep.
Qed.

Lemma run_Loaded n evs w ds w' :
  Loaded n w → run evs w = (inr ds, w') → Loaded n w'.
Proof.
  intros HL Hrun.
  by destruct (run_invariant (λ _, True) n evs (λ _ _ _ _, I) w ds w' HL I Hrun).
Qed.

(** With the frame rate within its bounds no event raises. *)
Lemma run_total n evs :
  ∀ w, Loaded n w → framerate_in_bounds w →
  ∃ ds w', run evs w = (inr ds, w').
Proof.
  induction evs as [|ev evs IH]; intros w HL HF.
  - by exists [], w.
  - simpl. unfold bind. rewrite (dispatch_after n) by done.
    destruct (outcome_in_bounds ev w HF) as [d ->].
    destruct (IH (after ev w)) as (ds & w' & ->).
    + by apply Loaded_after.
    + by apply framerate_after.
    + unfold ret. eauto.
Qed.

(** ** Setup *)

Lemma same_controls_refl w : same_controls w w.
Proof. by repeat split. Qed.

Lemma same_controls_trans w1 w2 w3 :
  same_controls w1 w2 → same_controls w2 w3 → same_controls w1 w3.
Proof.
  intros (?&?&?&?&?&?&?) (?&?&?&?&?&?&?). repeat split; congruence.
Qed.

Lemma load_frame_ok i w :
  collector (server w) = None →
  ∃ w', load_frame i w = (inr tt, w') ∧
    frame_nodes w' = frame_nodes w ++ [frame_path i] ∧
    collector (server w') = None ∧
    is_Some (registry (server w') !! frame_path i) ∧
    keeps_nodes w w' ∧ same_controls w w'.
Proof.
  intros Hcl.
  destruct w as [[reg col pub] nf ts nx pv pl fr prev nodes]; simpl in *.
  subst col. eexists. split.
  - cbv [load_frame bind gets modify add_frame add_point_cloud
         add_camera_frustum add_image upsert set_field commit ret
         apply_transaction apply_mutation
         server collector registry published with_server set_registry
         with_frame_nodes frame_nodes num_frames gui_timestep gui_next_frame
         gui_prev_frame gui_playing gui_framerate prev_timestep mut_path
         mut_write write_field].
    rewrite !lookup_insert_eq.
    reflexivity.
  - simpl. split; [done|]. split; [done|]. split.
    + rewrite !lookup_insert_is_Some'. auto 10.
    + split; [|by repeat split].
      intros k Hk. simpl. rewrite !lookup_insert_is_Some'. auto 10.
Qed.

Lemma load_frames_ok (m : nat) :
  ∀ k w,
    0 ≤ k →
    collector (server w) = None →
    frame_nodes w = frame_path <$> seqZ 0 k →
    (∀ i, 0 ≤ i < k → is_Some (registry (server w) !! frame_path i)) →
    ∃ w', for_each (seqZ k (Z.of_nat m)) load_frame w = (inr tt, w') ∧
      collector (server w') = None ∧
      frame_nodes w' = frame_path <$> seqZ 0 (k + Z.of_nat m) ∧
      (∀ i, 0 ≤ i < k + Z.of_nat m →
         is_Some (registry (server w') !! frame_path i)) ∧
      same_controls w w'.
Proof.
  induction m as [|m IH]; intros k w Hk Hcl Hnodes Hreg.
  - exists w. rewrite Z.add_0_r, seqZ_nil by done.
    do 4 (split; [done|]). apply same_controls_refl.
  - rewrite seqZ_cons by lia.
    destruct (load_frame_ok k w Hcl) as (w1 & E1 & Hn1 & Hcl1 & Hk1 & Hkeep & Hsame).
    destruct (IH (Z.succ k) w1) as (w2 & E2 & Hcl2 & Hn2 & Hreg2 & Hsame2).
    + lia.
    + done.
    + rewrite Hn1, Hnodes. replace (Z.succ k) with (k + 1) by lia.
      rewrite seqZ_app by lia. rewrite fmap_app. reflexivity.
    + intros i Hi. destruct (decide (i = k)) as [->|]; [done|].
      apply Hkeep, Hreg. lia.
    + exists w2. simpl. unfold bind. rewrite E1.
      replace (Z.pred (Z.of_nat (S m))) with (Z.of_nat m) by lia.
      rewrite E2.
      replace (k + Z.of_nat (S m)) with (Z.succ k + Z.of_nat m) by lia.
      do 4 (split; [done|]). by eapply same_controls_trans.
Qed.

Lemma set_field_commit p fw w :
  collector (server w) = None →
  is_Some (registry (server w) !! p) →
  set_field p fw w =
    (inr tt, with_server (λ s,
       mkViserServer (alter (write_field fw) p (registry s)) None
         (published s ++ [[mkMutation p fw]])) w).
Proof.
  intros Hcl Hp. unfold set_field, commit. rewrite Hcl. simpl.
  rewrite apply_mutation_alter by done. reflexivity.
Qed.

(** Lines 124-125 on the frames from [k] on. *)
Lemma hide_frames_ok (m : nat) :
  ∀ k w,
    collector (server w) = None →
    (∀ i, k ≤ i < k + Z.of_nat m →
       is_Some (registry (server w) !! frame_path i)) →
    ∃ w',
      for_each (zip (seqZ k (Z.of_nat m)) (frame_path <$> seqZ k (Z.of_nat m)))
        show_if_current w = (inr tt, w') ∧
      collector (server w') = None ∧
      frame_nodes w' = frame_nodes w ∧
      keeps_nodes w w' ∧
      same_controls w w' ∧
      (∀ i, k ≤ i < k + Z.of_nat m →
         frame_visible w' i = (i =? sl_value (gui_timestep w))) ∧
      (∀ i, i < k → frame_visible w' i = frame_visible w i).
Proof.
  induction m as [|m IH]; intros k w Hcl Hreg.
  - exists w. rewrite seqZ_nil by done.
    do 3 (split; [done|]). split; [by intros k'|].
    split; [apply same_controls_refl|]. split; [|done].
    intros i Hi. lia.
  - rewrite seqZ_cons by lia. rewrite fmap_cons. simpl zip.
    replace (Z.pred (Z.of_nat (S m))) with (Z.of_nat m) by lia.
    set (w1 := with_server (λ s,
       mkViserServer
         (alter (write_field (Visible (k =? sl_value (gui_timestep w))))
            (frame_path k) (registry s)) None
         (published s ++
            [[mkMutation (frame_path k)
                (Visible (k =? sl_value (gui_timestep w)))]])) w).
    destruct (IH (Z.succ k) w1) as (w2 & E2 & Hcl2 & Hn2 & Hkeep2 & Hsame2 & Hvis2 & Hold2).
    + done.
    + intros i Hi. simpl. apply alter_is_Some, Hreg. lia.
    + exists w2. split.
      { simpl. unfold bind at 1. unfold show_if_current, bind, gets.
        simpl. rewrite set_field_commit by (done || apply Hreg; lia).
        exact E2. }
      split; [done|]. split; [done|]. split.
      { intros j Hj. apply Hkeep2. simpl. by apply alter_is_Some. }
      split.
      { eapply same_controls_trans; [|exact Hsame2]. by repeat split. }
      split.
      * intros i Hi. destruct (decide (i = k)) as [->|Hne].
        -- rewrite Hold2 by lia. unfold frame_visible. simpl.
           rewrite lookup_alter, decide_True by done.
           destruct (Hreg k) as [nd ->]; [lia|]. reflexivity.
        -- rewrite Hvis2 by lia. reflexivity.
      * intros i Hi. rewrite Hold2 by lia. unfold frame_visible. simpl.
        rewrite lookup_alter, decide_False; [done|].
        intros He. apply frame_path_inj in He. lia.
Qed.

Lemma setup_ok n ts fr :
  0 ≤ sl_value ts < n → sl_min ts = 0 → sl_max ts = n - 1 →
  ∃ w, setup (initial_world n ts fr) = (inr tt, w) ∧
    Loaded n w ∧
    same_controls (with_prev_timestep (sl_value ts) (initial_world n ts fr)) w ∧
    shows_current w.
Proof.
  intros Hn Hmin Hmax. unfold setup.
  unfold bind at 1. unfold gets at 1.
  unfold bind at 1. unfold modify at 1.
  unfold bind at 1. unfold add_frame at 1, upsert, bind, modify, ret.
  unfold gets at 1.
  set (w0 := with_server _ _).
  assert (Hc0 : same_controls
    (with_prev_timestep (sl_value ts) (initial_world n ts fr)) w0)
    by (by repeat split).
  destruct (load_frames_ok (Z.to_nat n) 0 w0) as (w1 & E1 & Hcl1 & Hn1 & Hreg1 & Hs1);
    [done|done|done|intros i Hi; lia|].
  rewrite Z2Nat.id in E1, Hn1, Hreg1 by lia. rewrite Z.add_0_l in Hn1, Hreg1.
  unfold py_range. replace (num_frames w0) with n by done. rewrite E1.
  unfold gets at 1. unfold py_enumerate.
  rewrite Hn1, length_fmap, length_seqZ.
  destruct (hide_frames_ok (Z.to_nat n) 0 w1) as
    (w2 & E2 & Hcl2 & Hn2 & Hkeep2 & Hs2 & Hvis2 & _);
    [done|intros i Hi; apply Hreg1; lia|].
  rewrite Z2Nat.id in E2, Hvis2 by lia. rewrite Z2Nat.id by lia.
  rewrite E2. unfold gets, modify.
  pose proof (same_controls_trans _ _ _ Hc0 Hs1) as Hc1.
  pose proof (same_controls_trans _ _ _ Hc1 Hs2) as Hc2.
  destruct Hc2 as (Hnf & Hts & Hnx & Hpv & Hpl & Hfr & Hprev).
  eexists. split; [reflexivity|].
  split; [|split].
  - split; simpl; rewrite ?Hts; simpl; try done.
    + congruence.
    + intros i Hi. apply Hkeep2, Hreg1. lia.
  - repeat split; simpl; try done. by rewrite Hts.
  - intros i Hi. simpl in Hi. rewrite Hnf in Hi. simpl in Hi.
    destruct Hs2 as (_ & Hts2 & _).
    unfold frame_visible in *. simpl.
    rewrite Hvis2 by lia. by rewrite Hts2.
Qed.

Lemma main_setup_inr max_frames loader_num_frames loader_fps w :
  main_setup max_frames loader_num_frames loader_fps = inr w →
  1 ≤ Z.min max_frames loader_num_frames ∧
  (1 <= loader_fps)%Q ∧ (loader_fps <= 60)%Q ∧
  Started (Z.min max_frames loader_num_frames) loader_fps w.
Proof.
  unfold main_setup, add_gui_slider.
  set (n := Z.min max_frames loader_num_frames).
  destruct (Z.leb_spec 0 0) as [_|]; [|lia].
  destruct (Z.leb_spec 0 (n - 1)) as [Hn|]; [|done]. simpl.
  destruct (Qle_bool 1 loader_fps) eqn:Hlo; [|done].
  destruct (Qle_bool loader_fps 60) eqn:Hhi; [|done]. simpl.
  apply Qle_bool_iff in Hlo, Hhi.
  match goal with |- context [setup (initial_world n ?ts ?fr)] =>
    destruct (setup_ok n ts fr) as (w' & -> & HL & Hsame & Hshow);
      simpl; [lia|done|done|]
  end.
  intros [= ->].
  destruct Hsame as (Hnf & Hts & Hnx & Hpv & Hpl & Hfr & Hprev). simpl in *.
  split; [lia|]. split; [done|]. split; [done|].
  split; try done.
  - unfold controls_follow_playing. by rewrite Hts, Hnx, Hpv, Hpl.
  - unfold framerate_in_bounds. by rewrite Hfr.
  - by rewrite Hts.
  - by rewrite Hpl.
  - by rewrite Hfr.
Qed.

Lemma main_setup_ok max_frames loader_num_frames loader_fps :
  1 ≤ Z.min max_frames loader_num_frames →
  (1 <= loader_fps)%Q → (loader_fps <= 60)%Q →
  ∃ w, main_setup max_frames loader_num_frames loader_fps = inr w.
Proof.
  intros Hn Hlo Hhi. unfold main_setup, add_gui_slider.
  set (n := Z.min max_frames loader_num_frames) in *.
  destruct (Z.leb_spec 0 0) as [_|]; [|lia].
  destruct (Z.leb_spec 0 (n - 1)) as [_|]; [|lia]. simpl.
  apply Qle_bool_iff in Hlo, Hhi. rewrite Hlo, Hhi. simpl.
  match goal with |- context [setup (initial_world n ?ts ?fr)] =>
    destruct (setup_ok n ts fr) as (w' & -> & _); simpl; [lia|done|done|]
  end.
  by exists w'.
Qed.

Lemma reachable_invariant max_frames loader_num_frames loader_fps w :
  reachable max_frames loader_num_frames loader_fps w →
  Loaded (Z.min max_frames loader_num_frames) w ∧
  controls_follow_playing w ∧ framerate_in_bounds w.
Proof.
  intros (w0 & evs & ds & Hsetup & Hrun).
  apply main_setup_inr in Hsetup as (_ & _ & _ & [HL HC HF _ _ _ _]).
  eapply (run_invariant
            (λ w, controls_follow_playing w ∧ framerate_in_bounds w));
    [| exact HL | done | exact Hrun].
  intros ev w1 _ [? ?]. split; [by apply controls_after|by apply framerate_after].
Qed.

Lemma reachable_after max_frames loader_num_frames loader_fps ev w :
  reachable max_frames loader_num_frames loader_fps w →
  reachable max_frames loader_num_frames loader_fps (after ev w).
Proof.
  intros Hreach.
  destruct (reachable_invariant _ _ _ _ Hreach) as (HL & _ & HF).
  destruct Hreach as (w0 & evs & ds & Hsetup & Hrun).
  destruct (outcome_in_bounds ev w HF) as [d Hd].
  exists w0, (evs ++ [ev]).
  assert (Happ : ∀ evs w0 ds,
    run evs w0 = (inr ds, w) →
    ∃ ds', run (evs ++ [ev]) w0 = (inr ds', after ev w)).
  { clear -HL Hd. induction evs as [|e evs IH]; intros w0 ds Hrun.
    - injection Hrun as _ ->. simpl. unfold bind.
      rewrite (dispatch_after _ _ _ HL), Hd. unfold ret. eauto.
    - simpl in *. unfold bind in *.
      destruct (dispatch e w0) as [[err|d0] w1]; [done|].
      destruct (run evs w1) as [[err|ds1] w2] eqn:E; [done|].
      unfold ret in Hrun. injection Hrun as _ ->.
      destruct (IH w1 ds1 E) as [ds' ->]. unfold ret. eauto. }
  destruct (Happ evs w0 ds Hrun) as [ds' Hrun'].
  by exists ds'.
Qed.

(** For every frame count of at least one and every loader frame rate within
    the FPS slider's bounds, setup succeeds and no sequence of events raises:
    every run ends in a reachable world. *)
Lemma every_run_succeeds max_frames loader_num_frames loader_fps evs :
  1 ≤ Z.min max_frames loader_num_frames →
  (1 <= loader_fps)%Q → (loader_fps <= 60)%Q →
  ∃ w0 ds w,
    main_setup max_frames loader_num_frames loader_fps = inr w0 ∧
    run evs w0 = (inr ds, w) ∧
    reachable max_frames loader_num_frames loader_fps w.
Proof.
  intros Hn Hlo Hhi.
  destruct (main_setup_ok _ _ _ Hn Hlo Hhi) as [w0 Hsetup].
  pose proof (main_setup_inr _ _ _ _ Hsetup) as (_ & _ & _ & HS).
  destruct (run_total _ evs w0 (started_loaded _ _ _ HS)
              (started_framerate _ _ _ HS)) as (ds & w & Hrun).
  exists w0, ds, w. split; [done|]. split; [done|]. by exists w0, evs, ds.
Qed.

(** * The playback controller's properties *)

(** C8: in every reachable world the timestep slider's value lies in
    [0, num_frames): setup creates the slider with bounds [0, num_frames - 1]
    and value 0, and every later world keeps the value in range. *)
Theorem timestep_within_frames max_frames loader_num_frames loader_fps w :
  reachable max_frames loader_num_frames loader_fps w →
  let n := Z.min max_frames loader_num_frames in
  (∃ w0, main_setup max_frames loader_num_frames loader_fps = inr w0 ∧
         sl_value (gui_timestep w0) = 0 ∧
         sl_min (gui_timestep w0) = 0 ∧ sl_max (gui_timestep w0) = n - 1) ∧
  num_frames w = n ∧ 1 ≤ n ∧
  0 ≤ sl_value (gui_timestep w) < n.
Proof.
  intros Hreach n.
  destruct (reachable_invariant _ _ _ _ Hreach) as (HL & _ & _).
  destruct Hreach as (w0 & evs & ds & Hsetup & _).
  pose proof (main_setup_inr _ _ _ _ Hsetup) as (Hn & _ & _ & HS).
  split.
  - exists w0. destruct HS as [HL0 _ _ _ Hidx _ _].
    destruct (loaded_bounds _ _ HL0). done.
  - split; [apply (loaded_num_frames _ _ HL)|].
    split; [done|]. apply (loaded_range _ _ HL).
Qed.

Lemma timestep_within_frames_witness :
  reachable 50 3 30%Q three_frames_stepped ∧
  0 ≤ sl_value (gui_timestep three_frames_stepped) < 3.
Proof.
  assert (H : reachable 50 3 30%Q three_frames_stepped).
  { exists three_frames, [ClickPrevFrame], []. split; vm_compute; reflexivity. }
  split; [exact H|].
  apply (timestep_within_frames 50 3 30%Q three_frames_stepped H).
Defined.

(** C9: in every reachable world the FPS slider's value is at least its
    declared minimum 1, so [1.0 / gui_framerate.value] in the playback loop
    does not divide by zero: the loop iteration returns a sleep period. *)
Theorem framerate_division_defined max_frames loader_num_frames loader_fps w :
  reachable max_frames loader_num_frames loader_fps w →
  sl_min (gui_framerate w) = 1%Q ∧
  (1 <= sl_value (gui_framerate w))%Q ∧
  ¬ (sl_value (gui_framerate w) == 0)%Q ∧
  ∃ w', loop_iteration w = (inr (1 / sl_value (gui_framerate w))%Q, w').
Proof.
  intros Hreach.
  destruct (reachable_invariant _ _ _ _ Hreach) as (HL & _ & HF).
  destruct HF as (_ & Hmin & _ & Hlo & _).
  assert (Hnz : ¬ (sl_value (gui_framerate w) == 0)%Q).
  { intros H0. rewrite H0 in Hlo. by apply Hlo. }
  repeat split; try done.
  exists (ticked w). by eapply loop_iteration_ticked.
Qed.

Lemma framerate_division_defined_witness :
  reachable 50 3 30%Q three_frames_stepped ∧
  ∃ w', loop_iteration three_frames_stepped = (inr (1 / 30)%Q, w').
Proof.
  assert (H : reachable 50 3 30%Q three_frames_stepped).
  { exists three_frames, [ClickPrevFrame], []. split; vm_compute; reflexivity. }
  split; [exact H|].
  apply (framerate_division_defined 50 3 30%Q three_frames_stepped H).
Defined.

(** C5: from an index [cur] within [0, num_frames), "Next Frame" sets the
    timestep to [(cur + 1) mod num_frames] and "Prev Frame" sets it to
    [(cur - 1 + num_frames) mod num_frames], which lies in [0, num_frames)
    also when [cur = 0]. *)
Theorem step_buttons_wrap max_frames loader_num_frames loader_fps w :
  reachable max_frames loader_num_frames loader_fps w →
  let n := Z.min max_frames loader_num_frames in
  let cur := sl_value (gui_timestep w) in
  0 ≤ cur < n ∧
  ∃ w_next w_prev,
    next_frame_on_click w = (inr tt, w_next) ∧
    sl_value (gui_timestep w_next) = (cur + 1) mod n ∧
    prev_frame_on_click w = (inr tt, w_prev) ∧
    sl_value (gui_timestep w_prev) = (cur - 1 + n) mod n ∧
    0 ≤ sl_value (gui_timestep w_prev) < n.
Proof.
  intros Hreach n cur.
  destruct (reachable_invariant _ _ _ _ Hreach) as (HL & _ & _).
  pose proof (loaded_range _ _ HL) as Hr. fold n in HL, Hr. fold cur in Hr.
  split; [done|].
  eexists _, _.
  split; [by apply (next_frame_on_click_switched n)|].
  split; [done|].
  split; [by apply (prev_frame_on_click_switched n)|].
  simpl. fold cur.
  assert (E : (cur - 1 + n) mod n = (cur - 1) mod n).
  { replace (cur - 1 + n) with (cur - 1 + 1 * n) by lia.
    apply Z_mod_plus_full. }
  rewrite E. split; [done|]. apply Z.mod_pos_bound. lia.
Qed.

Lemma step_buttons_wrap_witness :
  reachable 50 3 30%Q three_frames ∧
  ∃ w_next w_prev,
    next_frame_on_click three_frames = (inr tt, w_next) ∧
    sl_value (gui_timestep w_next) = 1 ∧
    prev_frame_on_click three_frames = (inr tt, w_prev) ∧
    sl_value (gui_timestep w_prev) = 2 ∧
    0 ≤ sl_value (gui_timestep w_prev) < 3.
Proof.
  assert (H : reachable 50 3 30%Q three_frames).
  { exists three_frames, [], []. split; vm_compute; reflexivity. }
  split; [exact H|].
  apply (step_buttons_wrap 50 3 30%Q three_frames H).
Defined.

(** C6: a change of the "Playing" checkbox to [b] sets the [disabled] flags
    of the timestep slider and of both step buttons to [b]: [true] disables
    all three, [false] re-enables all three. *)
Theorem playing_sets_disabled (b : bool) (w : World) :
  ∃ w',
    gui_playing_set_value b w = (inr tt, w') ∧
    dispatch (TogglePlaying b) w = (inr None, w') ∧
    cb_value (gui_playing w') = b ∧
    sl_disabled (gui_timestep w') = b ∧
    btn_disabled (gui_next_frame w') = b ∧
    btn_disabled (gui_prev_frame w') = b.
Proof. exists (toggled b w). repeat split. Qed.

(** C7: one iteration of the playback loop, in a reachable world.  While
    playing it leaves the world exactly as the "Next Frame" callback does,
    with the timestep at [(cur + 1) mod num_frames]; while paused it leaves
    the world alone.  It sleeps for [1 / fps] with the FPS value of that
    iteration: after the FPS slider moves to [v], the next iteration sleeps
    for [1 / v], and the period already slept is not revised. *)
Theorem loop_iteration_steps_and_sleeps
    max_frames loader_num_frames loader_fps w :
  reachable max_frames loader_num_frames loader_fps w →
  let n := Z.min max_frames loader_num_frames in
  let fps := sl_value (gui_framerate w) in
  ∃ w_next,
    next_frame_on_click w = (inr tt, w_next) ∧
    sl_value (gui_timestep w_next) = (sl_value (gui_timestep w) + 1) mod n ∧
    loop_iteration w =
      (inr (1 / fps)%Q, if cb_value (gui_playing w) then w_next else w) ∧
    ∀ v, Qle_bool 1 v = true → Qle_bool v 60 = true →
      ∃ w', run [LoopIteration; DragFramerate v; LoopIteration] w =
              (inr [(1 / fps)%Q; (1 / v)%Q], w').
Proof.
  intros Hreach n fps.
  destruct (reachable_invariant _ _ _ _ Hreach) as (HL & _ & HF).
  fold n in HL.
  assert (Hnz : ∀ w, framerate_in_bounds w →
                     ¬ (sl_value (gui_framerate w) == 0)%Q).
  { intros w1 (_ & _ & _ & Hlo & _) H0. rewrite H0 in Hlo. by apply Hlo. }
  exists (switched ((sl_value (gui_timestep w) + 1) mod n) w).
  split; [by apply (next_frame_on_click_switched n)|].
  split; [done|]. split.
  - rewrite (loop_iteration_ticked n) by auto.
    unfold ticked. by rewrite (loaded_num_frames _ _ HL).
  - intros v Hlo Hhi.
    pose proof (Loaded_ticked n w HL) as HL1.
    pose proof (framerate_after LoopIteration w HF) as HF1. simpl in HF1.
    set (w1 := ticked w) in *.
    set (w2 := with_gui_framerate (slider_set_value v) w1).
    assert (HL2 : Loaded n w2) by (by destruct HL1).
    exists (ticked w2).
    assert (Hv : ¬ (v == 0)%Q).
    { intros H0. apply Qle_bool_iff in Hlo. rewrite H0 in Hlo. by apply Hlo. }
    rewrite (run_cons_after n _ _ _ _ HL (outcome_loop_iteration w (Hnz w HF))).
    rewrite (run_cons_after n (DragFramerate v) _ _ None HL1 eq_refl).
    change (after LoopIteration w) with w1.
    assert (E : after (DragFramerate v) w1 = w2).
    { simpl. destruct HF1 as (Hen & Hmin & Hmax & _).
      by rewrite Hen, Hmin, Hmax, Hlo, Hhi. }
    rewrite E.
    rewrite (run_cons_after n _ _ _ _ HL2 (outcome_loop_iteration w2 Hv)).
    reflexivity.
Qed.

Lemma loop_iteration_steps_and_sleeps_witness :
  reachable 50 3 30%Q three_frames ∧
  ∃ w_next,
    next_frame_on_click three_frames = (inr tt, w_next) ∧
    sl_value (gui_timestep w_next) = 1 ∧
    loop_iteration three_frames = (inr (1 / 30)%Q, three_frames) ∧
    ∃ w', run [LoopIteration; DragFramerate 15%Q; LoopIteration] three_frames =
            (inr [(1 / 30)%Q; (1 / 15)%Q], w').
Proof.
  assert (H : reachable 50 3 30%Q three_frames).
  { exists three_frames, [], []. split; vm_compute; reflexivity. }
  split; [exact H|].
  destruct (loop_iteration_steps_and_sleeps 50 3 30%Q three_frames H)
    as (w_next & H1 & H2 & H3 & H4).
  assert (Hp : cb_value (gui_playing three_frames) = false)
    by (vm_compute; reflexivity).
  assert (Hf : sl_value (gui_framerate three_frames) = 30%Q)
    by (vm_compute; reflexivity).
  rewrite Hp, Hf in H3. rewrite Hf in H4.
  exists w_next. split; [exact H1|]. split; [exact H2|].
  split; [exact H3|]. exact (H4 15%Q eq_refl eq_refl).
Defined.

(** C2: with ten frames, setting the timestep slider to 3 from any reachable
    world publishes exactly one more transaction; it holds exactly two
    mutations, [visible = true] on [/frames/t3] and [visible = false] on the
    root of the frame shown before; the slider and [prev_timestep] end at 3.
    A drag of the enabled slider to 3 does the same. *)
Theorem slider_to_three_of_ten max_frames loader_num_frames loader_fps w :
  Z.min max_frames loader_num_frames = 10 →
  reachable max_frames loader_num_frames loader_fps w →
  let old := sl_value (gui_timestep w) in
  ∃ w',
    gui_timestep_set_value 3 w = (inr tt, w') ∧
    published (server w') =
      published (server w) ++
        [[mkMutation "/frames/t3" (Visible true);
          mkMutation (frame_path old) (Visible false)]] ∧
    sl_value (gui_timestep w') = 3 ∧
    prev_timestep w' = 3 ∧
    (sl_disabled (gui_timestep w) = false →
     dispatch (DragTimestep 3) w = (inr None, w')).
Proof.
  intros Hten Hreach old.
  destruct (reachable_invariant _ _ _ _ Hreach) as (HL & _ & _).
  rewrite Hten in HL.
  exists (switched 3 w).
  split; [by apply (gui_timestep_set_value_switched 10)|].
  split; [|split; [done|split; [done|]]].
  - simpl. unfold switch_transaction.
    rewrite (loaded_prev _ _ HL). reflexivity.
  - intros Hen. rewrite (dispatch_after 10) by done. simpl.
    destruct (loaded_bounds _ _ HL) as [-> ->]. by rewrite Hen.
Qed.

Lemma slider_to_three_of_ten_witness :
  Z.min 50 10 = 10 ∧
  reachable 50 10 30%Q ten_frames_at_seven ∧
  ∃ w',
    gui_timestep_set_value 3 ten_frames_at_seven = (inr tt, w') ∧
    published (server w') =
      published (server ten_frames_at_seven) ++
        [[mkMutation "/frames/t3" (Visible true);
          mkMutation "/frames/t7" (Visible false)]] ∧
    sl_value (gui_timestep w') = 3 ∧
    prev_timestep w' = 3 ∧
    dispatch (DragTimestep 3) ten_frames_at_seven = (inr None, w').
Proof.
  assert (H : reachable 50 10 30%Q ten_frames_at_seven).
  { exists ten_frames, [DragTimestep 7], []. split; vm_compute; reflexivity. }
  split; [reflexivity|]. split; [exact H|].
  destruct (slider_to_three_of_ten 50 10 30%Q ten_frames_at_seven eq_refl H)
    as (w' & H1 & H2 & H3 & H4 & H5).
  assert (E : frame_path (sl_value (gui_timestep ten_frames_at_seven))
              = "/frames/t7") by (vm_compute; reflexivity).
  assert (Hen : sl_disabled (gui_timestep ten_frames_at_seven) = false)
    by (vm_compute; reflexivity).
  rewrite E in H2.
  exists w'. split; [exact H1|]. split; [exact H2|]. split; [exact H3|].
  split; [exact H4|exact (H5 Hen)].
Defined.

(** C10: the timestep-change callback queues [visible = true] on the new
    frame before [visible = false] on the previous one, in one transaction.
    So when the new index equals the previous one the frame ends hidden; with
    a single frame "Next Frame" wraps to the same index and hides it. *)
Theorem shown_then_hidden max_frames loader_num_frames loader_fps w v :
  reachable max_frames loader_num_frames loader_fps w →
  0 ≤ v < Z.min max_frames loader_num_frames →
  let old := sl_value (gui_timestep w) in
  ∃ w',
    timestep_on_update (with_gui_timestep (slider_set_value v) w) = (inr tt, w') ∧
    gui_timestep_set_value v w = (inr tt, w') ∧
    published (server w') =
      published (server w) ++
        [[mkMutation (frame_path v) (Visible true);
          mkMutation (frame_path old) (Visible false)]] ∧
    (v = old → frame_visible w' v = false) ∧
    (Z.min max_frames loader_num_frames = 1 →
     next_frame_on_click w = (inr tt, w') ∧ v = 0 ∧ frame_visible w' 0 = false).
Proof.
  intros Hreach Hv old.
  destruct (reachable_invariant _ _ _ _ Hreach) as (HL & _ & _).
  pose proof (loaded_range _ _ HL) as Hr. fold old in Hr.
  pose proof (gui_timestep_set_value_switched _ w v HL Hv) as Hset.
  assert (Hhid : v = old → frame_visible (switched v w) v = false).
  { intros ->. rewrite (frame_visible_switched _ w old old HL) by done.
    rewrite decide_True; [done|]. symmetry. apply (loaded_prev _ _ HL). }
  exists (switched v w).
  split; [exact Hset|]. split; [exact Hset|]. split.
  - simpl. unfold switch_transaction. by rewrite (loaded_prev _ _ HL).
  - split; [exact Hhid|]. intros Hone.
    assert (v = 0) as -> by lia. assert (Hold : old = 0) by lia.
    rewrite (next_frame_on_click_switched _ w HL), Hone, Z.mod_1_r.
    split; [done|]. split; [done|]. apply Hhid. by rewrite Hold.
Qed.

Lemma shown_then_hidden_witness :
  reachable 1 10 30%Q one_frame ∧ 0 ≤ 0 < Z.min 1 10 ∧
  ∃ w',
    next_frame_on_click one_frame = (inr tt, w') ∧
    published (server w') =
      published (server one_frame) ++
        [[mkMutation "/frames/t0" (Visible true);
          mkMutation "/frames/t0" (Visible false)]] ∧
    frame_visible w' 0 = false.
Proof.
  assert (H : reachable 1 10 30%Q one_frame).
  { exists one_frame, [], []. split; vm_compute; reflexivity. }
  assert (Hv : 0 ≤ 0 < Z.min 1 10) by lia.
  split; [exact H|]. split; [exact Hv|].
  destruct (shown_then_hidden 1 10 30%Q one_frame 0 H Hv)
    as (w' & _ & _ & H2 & _ & H4).
  destruct (H4 eq_refl) as (H5 & _ & H6).
  assert (E : frame_path (sl_value (gui_timestep one_frame)) = "/frames/t0")
    by (vm_compute; reflexivity).
  rewrite E in H2.
  exists w'. split; [exact H5|]. split; [exact H2|exact H6].
Defined.

(** ** A single frame: where the invariant breaks

    With [num_frames = 1] every step wraps to the index already shown, the
    callback shows and then hides the same node, and no frame is left
    visible. *)

(** C1: after setup of a one-frame capture exactly frame 0 is visible; one
    click on "Next Frame" leaves no per-frame subtree visible, and so does
    one playback tick. *)
Theorem single_frame_none_visible :
  visible_frames one_frame = [0] ∧
  (∃ w, run [ClickNextFrame] one_frame = (inr [], w) ∧ visible_frames w = []) ∧
  (∃ w, run [TogglePlaying true; LoopIteration] one_frame
          = (inr [(1 / 30)%Q], w) ∧
        visible_frames w = []).
Proof.
  split; [vm_compute; reflexivity|]. split.
  - exists (run [ClickNextFrame] one_frame).2.
    split; vm_compute; reflexivity.
  - exists (run [TogglePlaying true; LoopIteration] one_frame).2.
    split; vm_compute; reflexivity.
Qed.

(** C3: on a one-frame capture "Next Frame" then "Prev Frame" (and "Prev
    Frame" then "Next Frame") returns to index 0, but frame 0, visible
    before, is hidden afterwards. *)
Theorem single_frame_round_trip_hides :
  cb_value (gui_playing one_frame) = false ∧
  sl_value (gui_timestep one_frame) = 0 ∧
  frame_visible one_frame 0 = true ∧
  (∃ w, run [ClickNextFrame; ClickPrevFrame] one_frame = (inr [], w) ∧
        sl_value (gui_timestep w) = 0 ∧ frame_visible w 0 = false) ∧
  (∃ w, run [ClickPrevFrame; ClickNextFrame] one_frame = (inr [], w) ∧
        sl_value (gui_timestep w) = 0 ∧ frame_visible w 0 = false).
Proof.
  do 3 (split; [vm_compute; reflexivity|]). split.
  - exists (run [ClickNextFrame; ClickPrevFrame] one_frame).2.
    split; [|split]; vm_compute; reflexivity.
  - exists (run [ClickPrevFrame; ClickNextFrame] one_frame).2.
    split; [|split]; vm_compute; reflexivity.
Qed.

(** C4: on a one-frame capture, [num_frames = 1] clicks on "Next Frame" from
    index 0 return to index 0 with frame 0 hidden, where it was visible. *)
Theorem single_frame_cycle_hides :
  num_frames one_frame = 1 ∧
  sl_value (gui_timestep one_frame) = 0 ∧
  frame_visible one_frame 0 = true ∧
  ∃ w, run (replicate (Z.to_nat (num_frames one_frame)) ClickNextFrame) one_frame
         = (inr [], w) ∧
       sl_value (gui_timestep w) = 0 ∧ frame_visible w 0 = false.
Proof.
  do 3 (split; [vm_compute; reflexivity|]).
  exists (run [ClickNextFrame] one_frame).2.
  split; [|split]; vm_compute; reflexivity.
Qed.

(** ** Two or more frames: where the invariant holds

    A timestep change to an index other than the current one keeps exactly
    the frame at the slider's index visible; with [num_frames >= 2] every
    step of "Next Frame", "Prev Frame" and the playback loop is such a
    change. *)

Lemma shows_current_switched n w v :
  Loaded n w → shows_current w → 0 ≤ v < n →
  v ≠ sl_value (gui_timestep w) →
  shows_current (switched v w).
Proof.
  intros HL Hshow Hv Hne i Hi. simpl in Hi.
  rewrite (loaded_num_frames _ _ HL) in Hi.
  rewrite (frame_visible_switched n) by done.
  rewrite (loaded_prev _ _ HL). simpl.
  destruct (decide (i = sl_value (gui_timestep w))) as [->|Hi1].
  - symmetry. apply Z.eqb_neq. congruence.
  - destruct (decide (i = v)) as [->|Hi2].
    + symmetry. apply Z.eqb_refl.
    + rewrite Hshow by (by rewrite (loaded_num_frames _ _ HL)).
      apply Z.eqb_neq in Hi1, Hi2. by rewrite Hi1, Hi2.
Qed.

Lemma filter_seqZ_eq (f : Z → bool) (c : Z) (m : nat) :
  ∀ k, (∀ i, k ≤ i < k + Z.of_nat m → f i = (i =? c)) →
  filter (λ i, f i = true) (seqZ k (Z.of_nat m)) =
    if decide (k ≤ c < k + Z.of_nat m) then [c] else [].
Proof.
  induction m as [|m IH]; intros k Hf.
  - rewrite seqZ_nil by done. rewrite decide_False by lia. reflexivity.
  - rewrite seqZ_cons by lia.
    replace (Z.pred (Z.of_nat (S m))) with (Z.of_nat m) by lia.
    rewrite filter_cons, IH by (intros i Hi; apply Hf; lia).
    rewrite Hf by lia.
    destruct (Z.eqb_spec k c) as [->|Hne].
    + rewrite decide_True by done. rewrite decide_False by lia.
      by rewrite decide_True by lia.
    + rewrite decide_False by done.
      destruct (decide (Z.succ k ≤ c < Z.succ k + Z.of_nat m)).
      * by rewrite decide_True by lia.
      * by rewrite decide_False by lia.
Qed.

(** [shows_current] says that exactly one frame is visible. *)
Lemma visible_frames_current n w :
  Loaded n w → shows_current w →
  visible_frames w = [sl_value (gui_timestep w)].
Proof.
  intros HL Hshow. unfold visible_frames.
  pose proof (loaded_range _ _ HL) as Hr.
  rewrite (loaded_num_frames _ _ HL).
  rewrite <- (Z2Nat.id n) at 1 by lia.
  rewrite (filter_seqZ_eq _ (sl_value (gui_timestep w))).
  - rewrite Z2Nat.id by lia. by rewrite decide_True by lia.
  - intros i Hi. rewrite Z2Nat.id in Hi by lia. apply Hshow.
    rewrite (loaded_num_frames _ _ HL). lia.
Qed.

Section TwoOrMoreFrames.

Variable n : Z.
Hypothesis two_frames : 2 ≤ n.

Lemma succ_mod_other cur : 0 ≤ cur < n → (cur + 1) mod n ≠ cur.
Proof.
  intros Hc. destruct (decide (cur + 1 < n)).
  - rewrite Z.mod_small by lia. lia.
  - replace (cur + 1) with n by lia. rewrite Z_mod_same_full. lia.
Qed.

Lemma pred_mod_other cur : 0 ≤ cur < n → (cur - 1) mod n ≠ cur.
Proof.
  intros Hc. destruct (decide (1 ≤ cur)).
  - rewrite Z.mod_small by lia. lia.
  - assert (cur = 0) as -> by lia.
    rewrite <- (Z.mod_unique (0 - 1) n (-1) (n - 1)) by lia. lia.
Qed.


(** Every event other than a drag of the slider onto its own value keeps
    exactly the current frame visible. *)
Lemma shows_current_after ev w :
  Loaded n w → shows_current w →
  (∀ v, ev = DragTimestep v → v ≠ sl_value (gui_timestep w)) →
  shows_current (after ev w).
Proof.
  intros HL Hshow Hdrag.
  pose proof (loaded_range _ _ HL) as Hr.
  pose proof (loaded_num_frames _ _ HL) as Hnf.
  assert (Hmod : ∀ a, 0 ≤ a mod n < n) by (intros a; apply Z.mod_pos_bound; lia).
  destruct ev as [| |v|b|v|]; unfold after, ticked; rewrite ?Hnf.
  - destruct (btn_disabled (gui_next_frame w)); [done|].
    apply (shows_current_switched n); auto using succ_mod_other.
  - destruct (btn_disabled (gui_prev_frame w)); [done|].
    apply (shows_current_switched n); auto using pred_mod_other.
  - destruct (loaded_bounds _ _ HL) as [-> ->].
    destruct (sl_disabled (gui_timestep w)); [done|]. simpl.
    destruct (Z.ltb_spec v 0); [done|].
    destruct (Z.ltb_spec (n - 1) v); [done|]. simpl.
    apply (shows_current_switched n); auto. lia.
  - exact Hshow.
  - destruct (_ || _); exact Hshow.
  - destruct (cb_value (gui_playing w)); [|done].
    apply (shows_current_switched n); auto using succ_mod_other.
Qed.

Lemma shows_current_after_step ev w :
  Loaded n w → shows_current w → keeps_index ev = true →
  shows_current (after ev w).
Proof.
  intros HL Hshow Hev. apply shows_current_after; [done|done|].
  intros v ->. discriminate.
Qed.

(** A run of step-button clicks, playback ticks, play toggles and FPS
    changes keeps exactly one frame visible. *)
Lemma run_shows_current evs :
  forallb keeps_index evs = true →
  ∀ w ds w', Loaded n w → shows_current w → run evs w = (inr ds, w') →
  visible_frames w' = [sl_value (gui_timestep w')].
Proof.
  induction evs as [|ev evs IH]; intros Hevs w ds w' HL Hshow Hrun.
  - injection Hrun as _ <-. by apply (visible_frames_current n).
  - simpl in Hevs. apply andb_prop in Hevs as [Hev Hevs].
    destruct (run_cons_ok n ev evs w ds w' HL Hrun) as [ds' Hrun'].
    apply (IH Hevs (after ev w) ds' w'); [by apply Loaded_after| |done].
    by apply shows_current_after_step.
Qed.






End TwoOrMoreFrames.

(** Five frames, starting at index 2: after five clicks on "Next Frame" the
    index is 2 again and [/frames/t2] is the one visible frame. *)
Example five_frames_cycle :
  sl_value (gui_timestep five_frames_at_two) = 2 ∧
  visible_frames five_frames_at_two = [2] ∧
  ∃ w, run (replicate 5 ClickNextFrame) five_frames_at_two = (inr [], w) ∧
       sl_value (gui_timestep w) = 2 ∧
       visible_frames w = [2] ∧
       frame_path 2 = "/frames/t2".
Proof.
  do 2 (split; [vm_compute; reflexivity|]).
  exists (run (replicate 5 ClickNextFrame) five_frames_at_two).2.
  split; [|split; [|split]]; vm_compute; reflexivity.
Qed.

(** ** Paths of the scene *)

Lemma pretty_N_go_no_slash (x : N) :
  ∀ s, no_slash s = true → no_slash (pretty_N_go x s) = true.
Proof.
  induction (N.lt_wf_0 x) as [x _ IH]; intros s Hs.
  destruct (decide (x = 0%N)) as [->|Hx].
  - by rewrite pretty_N_go_0.
  - rewrite pretty_N_go_step by lia. apply IH.
    + apply N.div_lt; lia.
    + simpl. rewrite Hs. unfold pretty_N_char. by repeat case_match.
Qed.

Lemma pretty_Z_no_slash (i : Z) : no_slash (pretty i) = true.
Proof.
  assert (HN : ∀ x : N, no_slash (pretty x) = true).
  { intros x. unfold pretty, pretty_N. case_decide; [done|].
    by apply pretty_N_go_no_slash. }
  destruct i as [|p|p]; [done|apply HN|].
  change (pretty (Z.neg p)) with ("-" +:+ pretty (N.pos p)).
  simpl. apply HN.
Qed.

Lemma append_nil_l s : "" +:+ s = s.
Proof. reflexivity. Qed.

Lemma append_cons c s t : String c s +:+ t = String c (s +:+ t).
Proof. reflexivity. Qed.

Lemma append_nil_r s : s +:+ "" = s.
Proof. induction s as [|c s IH]; [done|]. by rewrite append_cons, IH. Qed.

Lemma split_at_slash d1 :
  ∀ d2 r1 r2,
    no_slash d1 = true → no_slash d2 = true → rooted r1 → rooted r2 →
    d1 +:+ r1 = d2 +:+ r2 → d1 = d2 ∧ r1 = r2.
Proof.
  induction d1 as [|c d1 IH]; intros [|c2 d2] r1 r2 H1 H2 Hr1 Hr2 E;
    rewrite ?append_nil_l, ?append_cons in E; simpl in H1, H2.
  - done.
  - subst r1. destruct Hr1 as [?|[r' [= -> _]]]; [done|]. done.
  - subst r2. destruct Hr2 as [?|[r' [= -> _]]]; [done|]. done.
  - injection E as -> E.
    apply andb_prop in H1 as [_ H1]. apply andb_prop in H2 as [_ H2].
    destruct (IH d2 r1 r2) as [-> ->]; done.
Qed.

Lemma frame_path_app i r : frame_path i +:+ r = "/frames/t" +:+ (pretty i +:+ r).
Proof. reflexivity. Qed.

Lemma subpath_inj i j r1 r2 :
  rooted r1 → rooted r2 →
  frame_path i +:+ r1 = frame_path j +:+ r2 → i = j ∧ r1 = r2.
Proof.
  intros Hr1 Hr2 E. rewrite !frame_path_app in E.
  apply (inj (String.app "/frames/t")) in E.
  apply split_at_slash in E as [E ->]; auto using pretty_Z_no_slash.
  split; [|done]. by apply (inj pretty).
Qed.

Lemma subpath_not_root i j r :
  rooted r → r ≠ "" → frame_path i +:+ r ≠ frame_path j.
Proof.
  intros Hr Hne E. rewrite <- (append_nil_r (frame_path j)) in E.
  apply subpath_inj in E as [_ ?]; [done|done|by left].
Qed.

Lemma frames_not_subpath i r : "/frames" ≠ frame_path i +:+ r.
Proof. rewrite frame_path_app. discriminate. Qed.

Lemma frames_not_frame_path i : "/frames" ≠ frame_path i.
Proof. unfold frame_path. discriminate. Qed.

Lemma rooted_child c : c ∈ child_suffixes → rooted c.1 ∧ c.1 ≠ "".
Proof.
  unfold child_suffixes. rewrite !elem_of_cons, elem_of_nil.
  intros [->|[->|[->|[->|[]]]]]; (split; [right; eexists; reflexivity|done]).
Qed.

Lemma child_suffix_type c c' :
  c ∈ child_suffixes → c' ∈ child_suffixes → c.1 = c'.1 → c = c'.
Proof.
  unfold child_suffixes. rewrite !elem_of_cons, !elem_of_nil.
  intros [->|[->|[->|[->|[]]]]] [->|[->|[->|[->|[]]]]]; simpl; done.
Qed.

Lemma lookup_add_subtree_outside i reg p :
  outside i p → add_subtree i reg !! p = reg !! p.
Proof.
  intros [Hroot Hchild]. unfold add_subtree.
  rewrite !lookup_insert_ne; [done|..]; try (intros E; by apply Hroot).
  all: intros E; symmetry in E; revert E.
  - apply (Hchild ("/point_cloud", PointCloudNode)).
    unfold child_suffixes. rewrite !elem_of_cons. tauto.
  - apply (Hchild ("/frustum", CameraFrustumNode)).
    unfold child_suffixes. rewrite !elem_of_cons. tauto.
  - apply (Hchild ("/frustum/axes", FrameNode)).
    unfold child_suffixes. rewrite !elem_of_cons. tauto.
  - apply (Hchild ("/frustum/image", ImageNode)).
    unfold child_suffixes. rewrite !elem_of_cons. tauto.
Qed.

Lemma lookup_add_subtree_root i reg :
  add_subtree i reg !! frame_path i = Some (mkSceneNode FrameNode true).
Proof.
  unfold add_subtree.
  rewrite !lookup_insert_ne by
    (intros E; apply subpath_not_root in E; [done|right; eexists; reflexivity|done]).
  apply lookup_insert_eq.
Qed.

Lemma lookup_add_subtree_child i reg c :
  c ∈ child_suffixes →
  add_subtree i reg !! (frame_path i +:+ c.1) = Some (mkSceneNode c.2 true).
Proof.
  unfold child_suffixes, add_subtree. rewrite !elem_of_cons, elem_of_nil.
  assert (Hne : ∀ r1 r2, r1 ≠ r2 → frame_path i +:+ r1 ≠ frame_path i +:+ r2).
  { intros r1 r2 Hr E. by apply (inj (String.app (frame_path i))) in E. }
  intros [->|[->|[->|[->|[]]]]]; simpl;
    repeat (rewrite lookup_insert_ne by (apply Hne; discriminate));
    apply lookup_insert_eq.
Qed.

Lemma dom_add_subtree i reg :
  dom (add_subtree i reg) = list_to_set (subtree_paths i) ∪ dom reg.
Proof.
  unfold add_subtree, subtree_paths, child_suffixes.
  rewrite !dom_insert_L. apply set_eq. intros p. simpl.
  rewrite !elem_of_union, !elem_of_singleton, elem_of_empty. tauto.
Qed.

Lemma outside_other i j r :
  i ≠ j → rooted r → outside i (frame_path j +:+ r).
Proof.
  intros Hij Hr. split.
  - intros E. rewrite <- (append_nil_r (frame_path i)) in E.
    apply subpath_inj in E as [? _]; [congruence|done|by left].
  - intros c Hc E. apply subpath_inj in E as [? _]; [congruence|done|].
    by apply rooted_child.
Qed.

Lemma outside_other_root i j : i ≠ j → outside i (frame_path j).
Proof.
  intros Hij. rewrite <- (append_nil_r (frame_path j)).
  apply outside_other; [done|by left].
Qed.

Lemma outside_frames i : outside i "/frames".
Proof.
  split; [apply frames_not_frame_path|]. intros c _. apply frames_not_subpath.
Qed.

(** ** The registry after the loops of setup *)

Lemma load_frame_registry i w :
  collector (server w) = None →
  registry (server (load_frame i w).2) = add_subtree i (registry (server w)).
Proof.
  intros Hcl.
  destruct w as [[reg col pub] nf ts nx pv pl fr prev nodes]; simpl in *.
  subst col.
  cbv [load_frame bind gets modify add_frame add_point_cloud
       add_camera_frustum add_image upsert set_field commit ret
       apply_transaction apply_mutation
       server collector registry published with_server set_registry
       with_frame_nodes frame_nodes num_frames gui_timestep gui_next_frame
       gui_prev_frame gui_playing gui_framerate prev_timestep mut_path
       mut_write write_field snd].
  rewrite !lookup_insert_eq.
  unfold add_subtree. by rewrite !insert_insert_eq.
Qed.

Lemma for_each_load_registry (l : list Z) :
  ∀ w w', collector (server w) = None →
    for_each l load_frame w = (inr tt, w') →
    registry (server w') = foldl (flip add_subtree) (registry (server w)) l.
Proof.
  induction l as [|i l IH]; intros w w' Hcl Hrun.
  - by injection Hrun as <-.
  - simpl in Hrun. unfold bind in Hrun.
    destruct (load_frame_ok i w Hcl) as (w1 & E1 & _ & Hcl1 & _).
    pose proof (load_frame_registry i w Hcl) as Hreg.
    rewrite E1 in Hrun, Hreg. simpl in Hreg.
    rewrite (IH w1 w' Hcl1 Hrun), Hreg. reflexivity.
Qed.

Lemma for_each_show_registry (l : list (Z * string)) :
  ∀ w w', collector (server w) = None →
    for_each l show_if_current w = (inr tt, w') →
    registry (server w') =
      foldl (λ reg p,
               alter (write_field (Visible (p.1 =? sl_value (gui_timestep w))))
                 p.2 reg)
        (registry (server w)) l.
Proof.
  induction l as [|p l IH]; intros w w' Hcl Hrun.
  - by injection Hrun as <-.
  - simpl in Hrun. unfold bind at 1 in Hrun.
    unfold show_if_current, bind, gets, set_field, commit in Hrun.
    rewrite Hcl in Hrun. simpl in Hrun. unfold apply_mutation in Hrun.
    simpl in Hrun.
    destruct (registry (server w) !! p.2) as [nd|] eqn:Hnd; [|done].
    apply IH in Hrun; [|done]. simpl in Hrun. rewrite Hrun. simpl.
    f_equal. apply map_eq. intros k.
    rewrite lookup_insert, lookup_alter.
    destruct (decide (p.2 = k)) as [<-|]; [by rewrite Hnd|done].
Qed.

(** ** The scene as a fold *)

Lemma loaded_frames_lookup (l : list Z) (reg : gmap string SceneNode) :
  let reg' := foldl (flip add_subtree) reg l in
  (∀ p, (∀ i, i ∈ l → outside i p) → reg' !! p = reg !! p) ∧
  (∀ i, i ∈ l → reg' !! frame_path i = Some (mkSceneNode FrameNode true)) ∧
  (∀ i c, i ∈ l → c ∈ child_suffixes →
     reg' !! (frame_path i +:+ c.1) = Some (mkSceneNode c.2 true)) ∧
  dom reg' = list_to_set (l ≫= subtree_paths) ∪ dom reg.
Proof.
  induction l as [|j l IH] using rev_ind; simpl.
  - split; [done|]. split; [by intros i Hi; apply elem_of_nil in Hi|].
    split; [by intros i c Hi; apply elem_of_nil in Hi|].
    by rewrite (left_id_L ∅ (∪)).
  - destruct IH as (IHout & IHroot & IHchild & IHdom).
    rewrite foldl_app. simpl. unfold flip at 1.
    set (reg1 := foldl (flip add_subtree) reg l) in *.
    split; [|split; [|split]].
    + intros p Hp.
      rewrite lookup_add_subtree_outside
        by (apply Hp, elem_of_app; right; constructor).
      apply IHout. intros i Hi. apply Hp, elem_of_app. by left.
    + intros i Hi. destruct (decide (i = j)) as [->|Hne].
      * apply lookup_add_subtree_root.
      * rewrite lookup_add_subtree_outside
          by (apply outside_other_root; congruence).
        apply IHroot.
        apply elem_of_app in Hi as [Hi|Hi%list_elem_of_singleton]; done.
    + intros i c Hi Hc. destruct (decide (i = j)) as [->|Hne].
      * by apply lookup_add_subtree_child.
      * rewrite lookup_add_subtree_outside
          by (apply outside_other; [congruence|by apply rooted_child]).
        apply IHchild; [|done].
        apply elem_of_app in Hi as [Hi|Hi%list_elem_of_singleton]; done.
    + rewrite dom_add_subtree, IHdom, bind_app, list_to_set_app_L. simpl.
      apply set_eq. intros p. rewrite !elem_of_union. tauto.
Qed.

Lemma shown_frames_lookup (v : Z) (m : nat) :
  ∀ k (reg : gmap string SceneNode),
    let reg' :=
      foldl (λ reg p, alter (write_field (Visible (p.1 =? v))) p.2 reg) reg
        (zip (seqZ k (Z.of_nat m)) (frame_path <$> seqZ k (Z.of_nat m))) in
    (∀ p, (∀ i, k ≤ i < k + Z.of_nat m → p ≠ frame_path i) →
       reg' !! p = reg !! p) ∧
    (∀ i, k ≤ i < k + Z.of_nat m →
       reg' !! frame_path i =
         write_field (Visible (i =? v)) <$> reg !! frame_path i) ∧
    dom reg' = dom reg.
Proof.
  induction m as [|m IH]; intros k reg.
  - rewrite seqZ_nil by done. simpl. split; [done|]. split; [|done].
    intros i Hi. lia.
  - rewrite seqZ_cons by lia. rewrite fmap_cons. simpl zip. simpl foldl.
    replace (Z.pred (Z.of_nat (S m))) with (Z.of_nat m) by lia.
    destruct (IH (Z.succ k)
                (alter (write_field (Visible (k =? v))) (frame_path k) reg))
      as (IHout & IHin & IHdom).
    split; [|split].
    + intros p Hp. rewrite IHout by (intros i Hi; apply Hp; lia).
      rewrite lookup_alter_ne; [done|]. intros E. by apply (Hp k); [lia|].
    + intros i Hi. destruct (decide (i = k)) as [->|Hne].
      * rewrite IHout.
        -- by rewrite lookup_alter, decide_True.
        -- intros i Hi' E. apply frame_path_inj in E. lia.
      * rewrite IHin by lia. rewrite lookup_alter_ne; [done|].
        intros E. apply frame_path_inj in E. lia.
    + by rewrite IHdom, dom_alter_L.
Qed.

(** The registry that setup leaves, as two folds over the frame indices. *)
Lemma setup_registry n ts fr w :
  0 ≤ n →
  setup (initial_world n ts fr) = (inr tt, w) →
  registry (server w) =
    foldl (λ reg p, alter (write_field (Visible (p.1 =? sl_value ts))) p.2 reg)
      (foldl (flip add_subtree)
         (<["/frames" := mkSceneNode FrameNode true]> ∅) (seqZ 0 n))
      (zip (seqZ 0 n) (frame_path <$> seqZ 0 n)).
Proof.
  intros Hn. unfold setup.
  unfold bind at 1. unfold gets at 1.
  unfold bind at 1. unfold modify at 1.
  unfold bind at 1. unfold add_frame at 1, upsert, bind, modify, ret.
  unfold gets at 1.
  set (w0 := with_server _ _).
  destruct (load_frames_ok (Z.to_nat n) 0 w0)
    as (w1 & E1 & Hcl1 & Hn1 & _ & Hs1);
    [done|done|done|intros i Hi; lia|].
  rewrite Z2Nat.id in E1, Hn1 by lia. rewrite Z.add_0_l in Hn1.
  unfold py_range. replace (num_frames w0) with n by done. rewrite E1.
  pose proof (for_each_load_registry _ w0 w1 eq_refl E1) as Hreg1.
  unfold gets at 1. unfold py_enumerate.
  rewrite Hn1, length_fmap, length_seqZ, Z2Nat.id by lia.
  destruct (for_each _ show_if_current w1) as [[e|[]] w2] eqn:E2; [done|].
  pose proof (for_each_show_registry _ _ _ Hcl1 E2) as Hreg2.
  unfold gets, modify. intros [= <-]. simpl.
  rewrite Hreg2, Hreg1. destruct Hs1 as (_ & -> & _). reflexivity.
Qed.

Lemma scene_paths_elem n p :
  p ∈ scene_paths n ↔
  p = "/frames" ∨ ∃ i, 0 ≤ i < n ∧ p ∈ subtree_paths i.
Proof.
  unfold scene_paths. rewrite elem_of_cons, list_elem_of_bind.
  setoid_rewrite elem_of_seqZ. split.
  - intros [?|(i & ? & ?)]; [by left|right; exists i; split; [lia|done]].
  - intros [?|(i & ? & ?)]; [by left|right; exists i; split; [done|lia]].
Qed.

Lemma subtree_paths_rooted i p :
  p ∈ subtree_paths i → ∃ r, rooted r ∧ p = frame_path i +:+ r.
Proof.
  unfold subtree_paths. rewrite elem_of_cons, list_elem_of_fmap.
  intros [->|(c & -> & Hc)].
  - exists "". split; [by left|by rewrite append_nil_r].
  - exists c.1. split; [by apply rooted_child|done].
Qed.

Lemma NoDup_subtree_paths i : NoDup (subtree_paths i).
Proof.
  assert (E : subtree_paths i =
    String.app (frame_path i) <$>
      [""; "/point_cloud"; "/frustum"; "/frustum/axes"; "/frustum/image"]).
  { unfold subtree_paths, child_suffixes. simpl. by rewrite append_nil_r. }
  rewrite E. apply NoDup_fmap_2; [apply _|].
  by apply (bool_decide_unpack _).
Qed.

Lemma NoDup_scene_paths n : NoDup (scene_paths n).
Proof.
  unfold scene_paths. apply NoDup_cons. split.
  - intros (i & Hp & _)%list_elem_of_bind.
    apply subtree_paths_rooted in Hp as (r & _ & E).
    by apply frames_not_subpath in E.
  - apply NoDup_bind; [|intros; apply NoDup_subtree_paths|apply NoDup_seqZ].
    intros i j p _ _ Hi Hj.
    apply subtree_paths_rooted in Hi as (r1 & Hr1 & ->).
    apply subtree_paths_rooted in Hj as (r2 & Hr2 & E).
    by apply subpath_inj in E as [? _].
Qed.

Lemma length_scene_paths n : 0 ≤ n → Z.of_nat (length (scene_paths n)) = 1 + 5 * n.
Proof.
  intros Hn. unfold scene_paths. simpl length.
  assert (H : ∀ l : list Z, Z.of_nat (length (l ≫= subtree_paths))
                            = 5 * Z.of_nat (length l)).
  { induction l as [|i l IH]; [done|]. rewrite bind_cons, length_app.
    simpl length in *. lia. }
  rewrite Nat2Z.inj_succ, H, length_seqZ. lia.
Qed.

(** The registry built by setup is a scene of [n] frames, with frame 0
    visible when the slider starts at 0. *)
Lemma setup_Scene n ts fr w :
  0 ≤ n →
  setup (initial_world n ts fr) = (inr tt, w) →
  Scene n (registry (server w)) ∧
  ∀ i, 0 ≤ i < n →
    registry (server w) !! frame_path i
      = Some (mkSceneNode FrameNode (i =? sl_value ts)).
Proof.
  intros Hn Hsetup. rewrite (setup_registry n ts fr w Hn Hsetup).
  set (reg0 := <["/frames" := mkSceneNode FrameNode true]> (∅ : gmap string SceneNode)).
  destruct (loaded_frames_lookup (seqZ 0 n) reg0)
    as (Lout & Lroot & Lchild & Ldom).
  set (reg1 := foldl (flip add_subtree) reg0 (seqZ 0 n)) in *.
  pose proof (shown_frames_lookup (sl_value ts) (Z.to_nat n) 0 reg1) as H.
  rewrite Z2Nat.id in H by lia. simpl in H.
  destruct H as (Sout & Sin & Sdom).
  assert (Hfr : ∀ i, 0 ≤ i < n →
    foldl (λ reg p, alter (write_field (Visible (p.1 =? sl_value ts))) p.2 reg)
      reg1 (zip (seqZ 0 n) (frame_path <$> seqZ 0 n)) !! frame_path i
    = Some (mkSceneNode FrameNode (i =? sl_value ts))).
  { intros i Hi. rewrite Sin by lia.
    rewrite Lroot by (apply elem_of_seqZ; lia). reflexivity. }
  split; [split|exact Hfr].
  - rewrite Sout by (intros i _; apply frames_not_frame_path).
    rewrite Lout by (intros i _; apply outside_frames).
    apply lookup_insert_eq.
  - intros i Hi. by rewrite Hfr.
  - intros i c Hi Hc.
    rewrite Sout.
    + apply Lchild; [apply elem_of_seqZ; lia|done].
    + intros j _. apply subpath_not_root; by apply rooted_child.
  - rewrite Sdom, Ldom. unfold reg0, scene_paths.
    rewrite dom_insert_L, dom_empty_L. simpl.
    apply set_eq. intros p. rewrite !elem_of_union, elem_of_empty. tauto.
Qed.

(** A timestep change keeps the scene. *)
Lemma Scene_switch n reg new old :
  Scene n reg → Scene n (switch_registry reg new old).
Proof.
  intros [Hroot Hframe Hchild Hdom]. unfold switch_registry. split.
  - rewrite !lookup_alter_ne by (intros E; symmetry in E;
                                 by apply frames_not_frame_path in E).
    done.
  - intros i Hi. rewrite !lookup_alter.
    repeat case_decide; simplify_eq;
      specialize (Hframe i Hi);
      destruct (reg !! frame_path i) as [nd|]; done.
  - intros i c Hi Hc.
    rewrite !lookup_alter_ne; [by apply Hchild|..];
      intros E; symmetry in E; revert E;
      apply subpath_not_root; by apply rooted_child.
  - by rewrite !dom_alter_L.
Qed.

Lemma Scene_after n ev w :
  Scene n (registry (server w)) → Scene n (registry (server (after ev w))).
Proof.
  intros HS. destruct ev; unfold after, ticked, toggled;
    repeat match goal with |- context [if ?c then _ else _] => destruct c end;
    simpl; try done; by apply Scene_switch.
Qed.

Lemma main_setup_setup max_frames loader_num_frames loader_fps w :
  main_setup max_frames loader_num_frames loader_fps = inr w →
  ∃ ts fr,
    setup (initial_world (Z.min max_frames loader_num_frames) ts fr)
      = (inr tt, w) ∧
    sl_value ts = 0.
Proof.
  unfold main_setup, add_gui_slider.
  destruct (_ && _); [|done]. destruct (_ && _); [|done].
  match goal with |- context [setup (initial_world ?n ?ts ?fr)] =>
    destruct (setup (initial_world n ts fr)) as [[e|[]] w'] eqn:E; [done|];
    intros [= <-]; by exists ts, fr
  end.
Qed.

Lemma main_setup_Scene max_frames loader_num_frames loader_fps w :
  main_setup max_frames loader_num_frames loader_fps = inr w →
  Scene (Z.min max_frames loader_num_frames) (registry (server w)) ∧
  ∀ i, 0 ≤ i < Z.min max_frames loader_num_frames →
    registry (server w) !! frame_path i = Some (mkSceneNode FrameNode (i =? 0)).
Proof.
  intros Hsetup.
  pose proof (main_setup_inr _ _ _ _ Hsetup) as (Hn & _).
  apply main_setup_setup in Hsetup as (ts & fr & Hsetup & Hts).
  assert (H0 : 0 ≤ Z.min max_frames loader_num_frames) by lia.
  destruct (setup_Scene _ ts fr w H0 Hsetup) as [H1 H2].
  rewrite Hts in H2. done.
Qed.

Lemma reachable_Scene max_frames loader_num_frames loader_fps w :
  reachable max_frames loader_num_frames loader_fps w →
  Scene (Z.min max_frames loader_num_frames) (registry (server w)).
Proof.
  intros (w0 & evs & ds & Hsetup & Hrun).
  pose proof (main_setup_inr _ _ _ _ Hsetup) as (_ & _ & _ & HS).
  pose proof (main_setup_Scene _ _ _ _ Hsetup) as [HS0 _].
  eapply (run_invariant (λ w, Scene _ (registry (server w))));
    [|exact (started_loaded _ _ _ HS)|exact HS0|exact Hrun].
  intros ev w1 _. apply Scene_after.
Qed.

Lemma stepped_reachable max_frames loader_num_frames loader_fps w :
  stepped max_frames loader_num_frames loader_fps w →
  reachable max_frames loader_num_frames loader_fps w.
Proof. intros (w0 & evs & ds & ? & _ & ?). by exists w0, evs, ds. Qed.

Lemma run_steps_shows_current n evs :
  2 ≤ n → forallb keeps_index evs = true →
  ∀ w ds w', Loaded n w → shows_current w → run evs w = (inr ds, w') →
  shows_current w'.
Proof.
  intros Hn. induction evs as [|ev evs IH]; intros Hevs w ds w' HL Hshow Hrun.
  - by injection Hrun as _ <-.
  - simpl in Hevs. apply andb_prop in Hevs as [Hev Hevs].
    destruct (run_cons_ok n ev evs w ds w' HL Hrun) as [ds' Hrun'].
    apply (IH Hevs (after ev w) ds' w'); [by apply Loaded_after| |done].
    by apply (shows_current_after_step n Hn).
Qed.

Lemma stepped_shows_current max_frames loader_num_frames loader_fps w :
  2 ≤ Z.min max_frames loader_num_frames →
  stepped max_frames loader_num_frames loader_fps w →
  shows_current w.
Proof.
  intros Hn (w0 & evs & ds & Hsetup & Hevs & Hrun).
  pose proof (main_setup_inr _ _ _ _ Hsetup) as (_ & _ & _ & HS).
  eapply run_steps_shows_current;
    [exact Hn|exact Hevs|exact (started_loaded _ _ _ HS)
    |exact (started_shows _ _ _ HS)|exact Hrun].
Qed.


Lemma Scene_children n reg i :
  Scene n reg → 0 ≤ i < n →
  reg !! (frame_path i +:+ "/point_cloud")
    = Some (mkSceneNode PointCloudNode true) ∧
  reg !! (frame_path i +:+ "/frustum")
    = Some (mkSceneNode CameraFrustumNode true) ∧
  reg !! (frame_path i +:+ "/frustum/axes")
    = Some (mkSceneNode FrameNode true) ∧
  reg !! (frame_path i +:+ "/frustum/image")
    = Some (mkSceneNode ImageNode true).
Proof.
  intros HS Hi.
  split; [|split; [|split]].
  - apply (scene_child n reg HS i ("/point_cloud", PointCloudNode) Hi).
    repeat constructor.
  - apply (scene_child n reg HS i ("/frustum", CameraFrustumNode) Hi).
    repeat constructor.
  - apply (scene_child n reg HS i ("/frustum/axes", FrameNode) Hi).
    repeat constructor.
  - apply (scene_child n reg HS i ("/frustum/image", ImageNode) Hi).
    repeat constructor.
Qed.

Lemma Scene_registered n reg p :
  Scene n reg → is_Some (reg !! p) ↔ p ∈ scene_paths n.
Proof.
  intros HS. rewrite <- elem_of_dom, (scene_dom n reg HS).
  apply elem_of_list_to_set.
Qed.

(** * Further properties of [main] *)

(** ** Startup *)

(** X1: when setup succeeds the timestep slider and [prev_timestep] are at
    0, playback is paused, the timestep slider and both step buttons are
    enabled, the FPS slider holds the loader's frame rate, and frame 0 is
    the one visible frame. *)
Theorem startup_state max_frames loader_num_frames loader_fps w0 :
  main_setup max_frames loader_num_frames loader_fps = inr w0 →
  sl_value (gui_timestep w0) = 0 ∧
  prev_timestep w0 = 0 ∧
  cb_value (gui_playing w0) = false ∧
  sl_disabled (gui_timestep w0) = false ∧
  btn_disabled (gui_next_frame w0) = false ∧
  btn_disabled (gui_prev_frame w0) = false ∧
  sl_value (gui_framerate w0) = loader_fps ∧
  visible_frames w0 = [0].
Proof.
  intros Hsetup.
  apply main_setup_inr in Hsetup as (_ & _ & _ & [HL HC _ Hshow Hidx Hp Hfps]).
  destruct HC as (Hc1 & Hc2 & Hc3). rewrite Hp in Hc1, Hc2, Hc3.
  split; [done|]. split; [by rewrite (loaded_prev _ _ HL)|].
  do 5 (split; [done|]).
  by rewrite (visible_frames_current _ _ HL Hshow), Hidx.
Qed.

Lemma startup_state_witness :
  main_setup 50 3 30%Q = inr three_frames ∧
  sl_value (gui_timestep three_frames) = 0 ∧
  cb_value (gui_playing three_frames) = false ∧
  visible_frames three_frames = [0].
Proof.
  assert (H : main_setup 50 3 30%Q = inr three_frames)
    by (vm_compute; reflexivity).
  split; [exact H|].
  destruct (startup_state 50 3 30%Q three_frames H)
    as (H1 & _ & H3 & _ & _ & _ & _ & H8).
  split; [exact H1|]. split; [exact H3|exact H8].
Defined.

(** X2: in every reachable world [frame_nodes] holds one handle per frame, in
    frame order, the handle of frame [i] being [/frames/t{i}]; their number is
    [min(max_frames, loader.num_frames())], so at most [max_frames]. *)
Theorem frame_handles_in_order max_frames loader_num_frames loader_fps w :
  reachable max_frames loader_num_frames loader_fps w →
  let n := Z.min max_frames loader_num_frames in
  Z.of_nat (length (frame_nodes w)) = n ∧
  n ≤ max_frames ∧ n ≤ loader_num_frames ∧
  NoDup (frame_nodes w) ∧
  ∀ i, 0 ≤ i < n → frame_nodes w !! Z.to_nat i = Some (frame_path i).
Proof.
  intros Hreach n.
  destruct (reachable_invariant _ _ _ _ Hreach) as (HL & _ & _).
  pose proof (loaded_range _ _ HL) as Hr. fold n in HL, Hr.
  rewrite (loaded_nodes _ _ HL).
  split; [rewrite length_fmap, length_seqZ; lia|].
  split; [lia|]. split; [lia|]. split.
  - apply NoDup_fmap_2; [|apply NoDup_seqZ].
    intros i j. apply frame_path_inj.
  - intros i Hi. by apply lookup_frame_paths.
Qed.

Lemma frame_handles_in_order_witness :
  reachable 50 3 30%Q three_frames_stepped ∧
  Z.of_nat (length (frame_nodes three_frames_stepped)) = 3 ∧
  frame_nodes three_frames_stepped !! 2%nat = Some "/frames/t2".
Proof.
  assert (H : reachable 50 3 30%Q three_frames_stepped).
  { exists three_frames, [ClickPrevFrame], []. split; vm_compute; reflexivity. }
  split; [exact H|].
  destruct (frame_handles_in_order 50 3 30%Q three_frames_stepped H)
    as (H1 & _ & _ & _ & H5).
  split; [exact H1|]. exact (H5 2 ltac:(lia)).
Defined.

(** ** The scene *)

(** X3: setup registers the root frame [/frames] and, for every frame [i],
    the frame root [/frames/t{i}] with a point cloud, a camera frustum, an
    axes frame and an image below it; of the frame roots exactly that of
    frame 0 is visible. *)
Theorem setup_builds_scene max_frames loader_num_frames loader_fps w0 :
  main_setup max_frames loader_num_frames loader_fps = inr w0 →
  let reg := registry (server w0) in
  node_type <$> reg !! "/frames" = Some FrameNode ∧
  ∀ i, 0 ≤ i < Z.min max_frames loader_num_frames →
    reg !! frame_path i = Some (mkSceneNode FrameNode (i =? 0)) ∧
    node_type <$> reg !! (frame_path i +:+ "/point_cloud")
      = Some PointCloudNode ∧
    node_type <$> reg !! (frame_path i +:+ "/frustum")
      = Some CameraFrustumNode ∧
    node_type <$> reg !! (frame_path i +:+ "/frustum/axes")
      = Some FrameNode ∧
    node_type <$> reg !! (frame_path i +:+ "/frustum/image")
      = Some ImageNode.
Proof.
  intros Hsetup reg. subst reg.
  destruct (main_setup_Scene _ _ _ _ Hsetup) as [HS Hroots].
  split; [by rewrite (scene_root _ _ HS)|].
  intros i Hi. split; [by apply Hroots|].
  destruct (Scene_children _ _ i HS Hi) as (H1 & H2 & H3 & H4).
  by rewrite H1, H2, H3, H4.
Qed.

Lemma setup_builds_scene_witness :
  main_setup 50 3 30%Q = inr three_frames ∧
  registry (server three_frames) !! frame_path 1
    = Some (mkSceneNode FrameNode false) ∧
  node_type <$> registry (server three_frames) !! (frame_path 1 +:+ "/frustum/image")
    = Some ImageNode.
Proof.
  assert (H : main_setup 50 3 30%Q = inr three_frames)
    by (vm_compute; reflexivity).
  split; [exact H|].
  destruct (setup_builds_scene 50 3 30%Q three_frames H) as [_ H2].
  destruct (H2 1 ltac:(lia)) as (H3 & _ & _ & _ & H7).
  split; [exact H3|exact H7].
Defined.

(** X4: setup registers nothing else: the registered paths are exactly
    [/frames] and the five paths of each frame, all distinct, so the
    registry holds [1 + 5 * num_frames] nodes. *)
Theorem setup_registers_exactly max_frames loader_num_frames loader_fps w0 :
  main_setup max_frames loader_num_frames loader_fps = inr w0 →
  let n := Z.min max_frames loader_num_frames in
  (∀ p, is_Some (registry (server w0) !! p) ↔
        p = "/frames" ∨ ∃ i, 0 ≤ i < n ∧ p ∈ subtree_paths i) ∧
  Z.of_nat (size (registry (server w0))) = 1 + 5 * n.
Proof.
  intros Hsetup n.
  pose proof (main_setup_inr _ _ _ _ Hsetup) as (Hn & _).
  destruct (main_setup_Scene _ _ _ _ Hsetup) as [HS _]. fold n in HS, Hn.
  split.
  - intros p. by rewrite (Scene_registered n _ p HS), scene_paths_elem.
  - rewrite <- size_dom, (scene_dom _ _ HS).
    rewrite size_list_to_set by apply NoDup_scene_paths.
    apply length_scene_paths. lia.
Qed.

Lemma setup_registers_exactly_witness :
  main_setup 50 3 30%Q = inr three_frames ∧
  Z.of_nat (size (registry (server three_frames))) = 16 ∧
  ¬ is_Some (registry (server three_frames) !! "/frames/t3").
Proof.
  assert (H : main_setup 50 3 30%Q = inr three_frames)
    by (vm_compute; reflexivity).
  split; [exact H|].
  destruct (setup_registers_exactly 50 3 30%Q three_frames H) as [H1 H2].
  split; [exact H2|].
  intros Hsome. apply H1 in Hsome as [E|(i & Hi & Hp)]; [discriminate E|].
  apply subtree_paths_rooted in Hp as (r & Hr & E).
  change "/frames/t3" with (frame_path 3) in E.
  rewrite <- (append_nil_r (frame_path 3)) in E.
  apply subpath_inj in E as [E _]; [|by left|done]. simpl in Hi. lia.
Defined.






(** ** Invariants of every run *)

(** X6: in every reachable world the timestep slider and both step buttons
    are disabled exactly when "Playing" is checked. *)
Theorem controls_disabled_iff_playing
    max_frames loader_num_frames loader_fps w :
  reachable max_frames loader_num_frames loader_fps w →
  sl_disabled (gui_timestep w) = cb_value (gui_playing w) ∧
  btn_disabled (gui_next_frame w) = cb_value (gui_playing w) ∧
  btn_disabled (gui_prev_frame w) = cb_value (gui_playing w).
Proof.
  intros Hreach. by destruct (reachable_invariant _ _ _ _ Hreach) as (_ & HC & _).
Qed.

Lemma controls_disabled_iff_playing_witness :
  reachable 50 3 30%Q three_frames_playing ∧
  cb_value (gui_playing three_frames_playing) = true ∧
  sl_disabled (gui_timestep three_frames_playing) = true ∧
  btn_disabled (gui_next_frame three_frames_playing) = true ∧
  btn_disabled (gui_prev_frame three_frames_playing) = true.
Proof.
  assert (H : reachable 50 3 30%Q three_frames_playing).
  { exists three_frames, [TogglePlaying true; LoopIteration], [(1 / 30)%Q].
    split; vm_compute; reflexivity. }
  assert (Hp : cb_value (gui_playing three_frames_playing) = true)
    by (vm_compute; reflexivity).
  split; [exact H|]. split; [exact Hp|].
  destruct (controls_disabled_iff_playing 50 3 30%Q three_frames_playing H)
    as (H1 & H2 & H3).
  rewrite Hp in H1, H2, H3. split; [exact H1|]. split; [exact H2|exact H3].
Defined.

(** X7: between events no transaction is left open and [prev_timestep]
    equals the value of the timestep slider, so the callback always hides
    the frame that was shown last. *)
Theorem prev_timestep_tracks_slider max_frames loader_num_frames loader_fps w :
  reachable max_frames loader_num_frames loader_fps w →
  prev_timestep w = sl_value (gui_timestep w) ∧
  collector (server w) = None.
Proof.
  intros Hreach. destruct (reachable_invariant _ _ _ _ Hreach) as (HL & _ & _).
  split; [apply (loaded_prev _ _ HL)|apply (loaded_closed _ _ HL)].
Qed.

Lemma prev_timestep_tracks_slider_witness :
  reachable 50 3 30%Q three_frames_stepped ∧
  prev_timestep three_frames_stepped = 2 ∧
  sl_value (gui_timestep three_frames_stepped) = 2.
Proof.
  assert (H : reachable 50 3 30%Q three_frames_stepped).
  { exists three_frames, [ClickPrevFrame], []. split; vm_compute; reflexivity. }
  assert (Hv : sl_value (gui_timestep three_frames_stepped) = 2)
    by (vm_compute; reflexivity).
  split; [exact H|].
  destruct (prev_timestep_tracks_slider 50 3 30%Q three_frames_stepped H)
    as [H1 _].
  rewrite Hv in H1. split; [exact H1|exact Hv].
Defined.

(** X8: no event raises in a reachable world: every click, drag, toggle and
    loop iteration is handled without [IndexError], [ZeroDivisionError] or
    any other exception, and leads to a reachable world. *)
Theorem events_never_raise max_frames loader_num_frames loader_fps w ev :
  reachable max_frames loader_num_frames loader_fps w →
  ∃ d w', dispatch ev w = (inr d, w') ∧
          reachable max_frames loader_num_frames loader_fps w'.
Proof.
  intros Hreach.
  destruct (reachable_invariant _ _ _ _ Hreach) as (HL & _ & HF).
  destruct (outcome_in_bounds ev w HF) as [d Hd].
  exists d, (after ev w). split.
  - by rewrite (dispatch_after _ _ _ HL), Hd.
  - by apply reachable_after.
Qed.

Lemma events_never_raise_witness :
  reachable 50 3 30%Q three_frames_stepped ∧
  ∃ d w', dispatch (DragTimestep 1) three_frames_stepped = (inr d, w') ∧
          reachable 50 3 30%Q w'.
Proof.
  assert (H : reachable 50 3 30%Q three_frames_stepped).
  { exists three_frames, [ClickPrevFrame], []. split; vm_compute; reflexivity. }
  split; [exact H|].
  exact (events_never_raise 50 3 30%Q three_frames_stepped (DragTimestep 1) H).
Defined.



(** ** Two or more frames, without drags of the timestep slider *)

Lemma stepped_invariant max_frames loader_num_frames loader_fps w :
  2 ≤ Z.min max_frames loader_num_frames →
  stepped max_frames loader_num_frames loader_fps w →
  Loaded (Z.min max_frames loader_num_frames) w ∧ shows_current w ∧
  controls_follow_playing w ∧ framerate_in_bounds w.
Proof.
  intros Hn Hstep.
  pose proof (stepped_shows_current _ _ _ _ Hn Hstep) as Hshow.
  apply stepped_reachable, reachable_invariant in Hstep as (HL & HC & HF).
  done.
Qed.

(** X10: with two or more frames, after any sequence of step-button clicks,
    playback ticks, play toggles and FPS changes exactly one frame is
    visible, the one at the slider's index. *)
Theorem one_frame_visible max_frames loader_num_frames loader_fps w :
  2 ≤ Z.min max_frames loader_num_frames →
  stepped max_frames loader_num_frames loader_fps w →
  visible_frames w = [sl_value (gui_timestep w)].
Proof.
  intros Hn Hstep.
  destruct (stepped_invariant _ _ _ _ Hn Hstep) as (HL & Hshow & _).
  by apply (visible_frames_current _ _ HL).
Qed.

Lemma one_frame_visible_witness :
  2 ≤ Z.min 50 3 ∧ stepped 50 3 30%Q three_frames_playing ∧
  visible_frames three_frames_playing = [1].
Proof.
  assert (Hn : 2 ≤ Z.min 50 3) by lia.
  assert (H : stepped 50 3 30%Q three_frames_playing).
  { exists three_frames, [TogglePlaying true; LoopIteration], [(1 / 30)%Q].
    split; [|split]; vm_compute; reflexivity. }
  assert (Hv : sl_value (gui_timestep three_frames_playing) = 1)
    by (vm_compute; reflexivity).
  split; [exact Hn|]. split; [exact H|].
  pose proof (one_frame_visible 50 3 30%Q three_frames_playing Hn H) as H1.
  rewrite Hv in H1. exact H1.
Defined.









(** ** Indices outside [0, num_frames) *)

Lemma py_getitem_frame_negative n i w :
  - n ≤ i < 0 →
  py_getitem (frame_path <$> seqZ 0 n) i w = (inr (frame_path (n + i)), w).
Proof.
  intros Hi. unfold py_getitem.
  rewrite length_fmap, length_seqZ, Z2Nat.id by lia.
  destruct (Z.ltb_spec i 0) as [_|]; [|lia].
  destruct (Z.ltb_spec (i + n) 0) as [|_]; [lia|].
  destruct (Z.leb_spec n (i + n)) as [|_]; [lia|]. simpl.
  rewrite lookup_frame_paths by lia. by rewrite (Z.add_comm i n).
Qed.

Lemma py_getitem_frame_outside n i w :
  0 ≤ n → i < - n ∨ n ≤ i →
  py_getitem (frame_path <$> seqZ 0 n) i w = (inl IndexError, w).
Proof.
  intros Hn Hi. unfold py_getitem.
  rewrite length_fmap, length_seqZ, Z2Nat.id by lia.
  destruct (Z.ltb_spec i 0).
  - destruct (Z.ltb_spec (i + n) 0) as [_|]; [done|]. lia.
  - destruct (Z.ltb_spec i 0) as [|_]; [lia|].
    destruct (Z.leb_spec n i) as [_|]; [done|]. lia.
Qed.

(** X15: an index in [-num_frames, -1] counts from the end, as Python list
    indexing does: a timestep change to such a [v] shows frame
    [num_frames + v] and hides the previous one in one transaction, and leaves
    the slider and [prev_timestep] at [v]. *)
Theorem negative_index_counts_from_end
    max_frames loader_num_frames loader_fps w v :
  reachable max_frames loader_num_frames loader_fps w →
  let n := Z.min max_frames loader_num_frames in
  let old := sl_value (gui_timestep w) in
  - n ≤ v < 0 →
  ∃ w',
    timestep_on_update (with_gui_timestep (slider_set_value v) w)
      = (inr tt, w') ∧
    gui_timestep_set_value v w = (inr tt, w') ∧
    published (server w') =
      published (server w) ++
        [[mkMutation (frame_path (n + v)) (Visible true);
          mkMutation (frame_path old) (Visible false)]] ∧
    sl_value (gui_timestep w') = v ∧ prev_timestep w' = v ∧
    (n + v ≠ old →
     frame_visible w' (n + v) = true ∧ frame_visible w' old = false).
Proof.
  intros Hreach n old Hv.
  destruct (reachable_invariant _ _ _ _ Hreach) as (HL & _ & _).
  fold n in HL. pose proof (loaded_range _ _ HL) as Hr. fold old in Hr.
  pose proof (loaded_prev _ _ HL) as Hprev. fold old in Hprev.
  set (w' := with_prev_timestep v
               (with_gui_timestep (slider_set_value v) (switched (n + v) w))).
  assert (Hrun : gui_timestep_set_value v w = (inr tt, w')).
  { unfold w'. clear w'.
    destruct HL as [Hn Hnodes Hreg Hcl Hb _ Hp].
    destruct w as [[reg col pub] nf ts nx pv pl fr prev nodes]; simpl in *.
    subst nf nodes col.
    unfold gui_timestep_set_value, timestep_on_update, bind, modify, gets,
      atomic.
    simpl.
    rewrite py_getitem_frame_negative by done.
    unfold set_field at 1. simpl.
    rewrite py_getitem_frame by lia.
    unfold set_field. simpl. unfold commit. simpl.
    rewrite apply_mutation_alter by (apply Hreg; lia).
    rewrite apply_mutation_alter by (apply alter_is_Some, Hreg; lia).
    reflexivity. }
  exists w'. split; [exact Hrun|]. split; [exact Hrun|]. split.
  - simpl. unfold switch_transaction. by rewrite Hprev.
  - split; [done|]. split; [done|]. intros Hne.
    change (frame_visible w') with (frame_visible (switched (n + v) w)).
    rewrite !(frame_visible_switched n w) by (done || lia).
    rewrite Hprev. split.
    + rewrite decide_False by done. by rewrite decide_True.
    + by rewrite decide_True.
Qed.

Lemma negative_index_counts_from_end_witness :
  reachable 50 3 30%Q three_frames ∧ - Z.min 50 3 ≤ -1 < 0 ∧
  ∃ w',
    gui_timestep_set_value (-1) three_frames = (inr tt, w') ∧
    sl_value (gui_timestep w') = -1 ∧
    frame_visible w' 2 = true ∧ frame_visible w' 0 = false.
Proof.
  assert (H : reachable 50 3 30%Q three_frames).
  { exists three_frames, [], []. split; vm_compute; reflexivity. }
  assert (Hv : - Z.min 50 3 ≤ -1 < 0) by lia.
  assert (Hold : sl_value (gui_timestep three_frames) = 0)
    by (vm_compute; reflexivity).
  split; [exact H|]. split; [exact Hv|].
  destruct (negative_index_counts_from_end 50 3 30%Q three_frames (-1) H Hv)
    as (w' & _ & H2 & _ & H4 & _ & H6).
  rewrite Hold in H6.
  destruct (H6 ltac:(discriminate)) as [H7 H8].
  exists w'. split; [exact H2|]. split; [exact H4|]. split; [exact H7|exact H8].
Defined.

(** X16: an index below [-num_frames] or from [num_frames] on makes the
    callback raise [IndexError] before anything is written: the slider holds
    the new value, and the registry, the published transactions and
    [prev_timestep] are as before. *)
Theorem index_out_of_range_raises
    max_frames loader_num_frames loader_fps w v :
  reachable max_frames loader_num_frames loader_fps w →
  let n := Z.min max_frames loader_num_frames in
  v < - n ∨ n ≤ v →
  ∃ w',
    timestep_on_update (with_gui_timestep (slider_set_value v) w)
      = (inl IndexError, w') ∧
    gui_timestep_set_value v w = (inl IndexError, w') ∧
    sl_value (gui_timestep w') = v ∧
    server w' = server w ∧
    prev_timestep w' = prev_timestep w ∧
    visible_frames w' = visible_frames w.
Proof.
  intros Hreach n Hv.
  destruct (reachable_invariant _ _ _ _ Hreach) as (HL & _ & _).
  fold n in HL. pose proof (loaded_range _ _ HL) as Hr.
  exists (with_gui_timestep (slider_set_value v) w).
  assert (Hrun : gui_timestep_set_value v w
                 = (inl IndexError, with_gui_timestep (slider_set_value v) w)).
  { destruct HL as [Hn Hnodes Hreg Hcl Hb _ Hp].
    destruct w as [[reg col pub] nf ts nx pv pl fr prev nodes]; simpl in *.
    subst nf nodes col.
    unfold gui_timestep_set_value, timestep_on_update, bind, modify, gets,
      atomic.
    simpl.
    rewrite py_getitem_frame_outside by (done || lia).
    reflexivity. }
  split; [exact Hrun|]. split; [exact Hrun|]. done.
Qed.

Lemma index_out_of_range_raises_witness :
  reachable 50 3 30%Q three_frames ∧ (3 < - Z.min 50 3 ∨ Z.min 50 3 ≤ 3) ∧
  ∃ w',
    gui_timestep_set_value 3 three_frames = (inl IndexError, w') ∧
    sl_value (gui_timestep w') = 3 ∧
    server w' = server three_frames.
Proof.
  assert (H : reachable 50 3 30%Q three_frames).
  { exists three_frames, [], []. split; vm_compute; reflexivity. }
  assert (Hv : 3 < - Z.min 50 3 ∨ Z.min 50 3 ≤ 3) by lia.
  split; [exact H|]. split; [exact Hv|].
  destruct (index_out_of_range_raises 50 3 30%Q three_frames 3 H Hv)
    as (w' & _ & H2 & H3 & H4 & _).
  exists w'. split; [exact H2|]. split; [exact H3|exact H4].
Defined.

(** ** Scrubbing and pausing *)

(** X17: while paused, a drag of the timestep slider to another index [v]
    within its bounds makes frame [v] the one visible frame and leaves the
    slider and [prev_timestep] at [v]. *)
Theorem drag_shows_frame max_frames loader_num_frames loader_fps w v :
  2 ≤ Z.min max_frames loader_num_frames →
  stepped max_frames loader_num_frames loader_fps w →
  cb_value (gui_playing w) = false →
  0 ≤ v < Z.min max_frames loader_num_frames →
  v ≠ sl_value (gui_timestep w) →
  ∃ w', dispatch (DragTimestep v) w = (inr None, w') ∧
    sl_value (gui_timestep w') = v ∧ prev_timestep w' = v ∧
    visible_frames w' = [v].
Proof.
  intros Hn Hstep Hplay Hv Hne.
  destruct (stepped_invariant _ _ _ _ Hn Hstep)
    as (HL & Hshow & (Hts & _) & _).
  rewrite Hplay in Hts.
  assert (E : after (DragTimestep v) w = switched v w).
  { simpl. destruct (loaded_bounds _ _ HL) as [-> ->]. rewrite Hts. simpl.
    destruct (Z.ltb_spec v 0); [lia|].
    by destruct (Z.ltb_spec (Z.min max_frames loader_num_frames - 1) v); [lia|]. }
  exists (switched v w). split; [|split; [done|split; [done|]]].
  - rewrite (dispatch_after _ _ _ HL), E. reflexivity.
  - rewrite (visible_frames_current (Z.min max_frames loader_num_frames)).
    + reflexivity.
    + by apply Loaded_switched.
    + by apply (shows_current_switched (Z.min max_frames loader_num_frames)).
Qed.

Lemma drag_shows_frame_witness :
  2 ≤ Z.min 50 3 ∧ stepped 50 3 30%Q three_frames_stepped ∧
  cb_value (gui_playing three_frames_stepped) = false ∧
  0 ≤ 1 < Z.min 50 3 ∧ 1 ≠ sl_value (gui_timestep three_frames_stepped) ∧
  ∃ w', dispatch (DragTimestep 1) three_frames_stepped = (inr None, w') ∧
        visible_frames w' = [1].
Proof.
  assert (Hn : 2 ≤ Z.min 50 3) by lia.
  assert (H : stepped 50 3 30%Q three_frames_stepped).
  { exists three_frames, [ClickPrevFrame], [].
    split; [|split]; vm_compute; reflexivity. }
  assert (Hp : cb_value (gui_playing three_frames_stepped) = false)
    by (vm_compute; reflexivity).
  assert (Hv : 0 ≤ 1 < Z.min 50 3) by lia.
  assert (Hne : 1 ≠ sl_value (gui_timestep three_frames_stepped))
    by (vm_compute; discriminate).
  split; [exact Hn|]. split; [exact H|]. split; [exact Hp|].
  split; [exact Hv|]. split; [exact Hne|].
  destruct (drag_shows_frame 50 3 30%Q three_frames_stepped 1 Hn H Hp Hv Hne)
    as (w' & H1 & _ & _ & H4).
  exists w'. split; [exact H1|exact H4].
Defined.

(** X18: checking "Playing" and unchecking it again, with no loop iteration
    in between, leaves a paused reachable world exactly as it was; checking
    it twice is the same as checking it once. *)
Theorem play_pause_round_trip max_frames loader_num_frames loader_fps w :
  reachable max_frames loader_num_frames loader_fps w →
  cb_value (gui_playing w) = false →
  run [TogglePlaying true; TogglePlaying false] w = (inr [], w) ∧
  ∃ w1, run [TogglePlaying true] w = (inr [], w1) ∧
        run [TogglePlaying true; TogglePlaying true] w = (inr [], w1).
Proof.
  intros Hreach Hplay.
  destruct (reachable_invariant _ _ _ _ Hreach) as (_ & (H1 & H2 & H3) & _).
  rewrite Hplay in H1, H2, H3. split.
  - destruct w as [srv nf [tv tmin tmax tstep td] [nxd] [pvd] [pl pld] fr prev
                     nodes]; simpl in *.
    subst. reflexivity.
  - exists (toggled true w). split; reflexivity.
Qed.

Lemma play_pause_round_trip_witness :
  reachable 50 3 30%Q three_frames_stepped ∧
  cb_value (gui_playing three_frames_stepped) = false ∧
  run [TogglePlaying true; TogglePlaying false] three_frames_stepped
    = (inr [], three_frames_stepped).
Proof.
  assert (H : reachable 50 3 30%Q three_frames_stepped).
  { exists three_frames, [ClickPrevFrame], []. split; vm_compute; reflexivity. }
  assert (Hp : cb_value (gui_playing three_frames_stepped) = false)
    by (vm_compute; reflexivity).
  split; [exact H|]. split; [exact Hp|].
  destruct (play_pause_round_trip 50 3 30%Q three_frames_stepped H Hp)
    as [H1 _].
  exact H1.
Defined.
